(** * CircularQueue: a single-producer/single-consumer ring buffer

    Shallow embedding of [src/circularqueue.h] and the properties of its
    sequential behaviour.

    Modelling choices.
    - [size_t] is a 64-bit unsigned integer: a [Z] in [0, 2^64), every
      arithmetic result reduced by [wrap].
    - [std::vector<T>] is a [list T]; [operator[]] outside the vector is
      undefined behaviour in C++ and is the [OutOfBounds] outcome here.
    - The atomic cursors are plain fields: every property below is about
      one thread calling the operations one after the other, so the
      memory orders play no role.
    - [double] is IEEE 754 binary64, through [SpecFloat] (precision 53,
      [emax] 1024, round to nearest even).
    - The constructor's [while] loop takes fuel; allocation is assumed to
      succeed. The model has no outcome for the exceptions of the vector
      ([std::length_error] above [max_size()], [std::bad_alloc]):
      [construct] describes the constructor where it returns, and the
      properties of constructed buffers take its return as a
      hypothesis. *)

From Stdlib Require Import ZArith Lia SpecFloat.
From stdpp Require Import base list.

Local Open Scope Z_scope.

(** ** Machine integers *)

Definition size_bits : Z := 64.
Definition SIZE_MAX : Z := 2 ^ size_bits - 1.

(** Reduction of an arithmetic result to [size_t]. *)
Definition wrap (z : Z) : Z := z mod 2 ^ size_bits.

(** A value of type [size_t]. *)
Definition is_size_t (z : Z) : Prop := 0 <= z <= SIZE_MAX.

(** ** Outcomes of an operation *)

(** [Done a]: the call returned [a]. [OutOfBounds]: the call indexed the
    vector outside its length. *)
Inductive outcome (A : Type) : Type :=
  | Done (a : A)
  | OutOfBounds.
Arguments Done {A} a.
Arguments OutOfBounds {A}.

#[global] Instance outcome_ret : MRet outcome := fun A a => Done a.

#[global] Instance outcome_bind : MBind outcome := fun A B k m =>
  match m with
  | Done a => k a
  | OutOfBounds => OutOfBounds
  end.

Section Queue.

Context {T : Type}.

(** [T()], the value a fresh vector slot holds. *)
Variable dflt : T.

(** ** The class *)

Record CircularQueue : Type := mkQueue {
  m_capacity : Z;
  m_mask : Z;
  m_buffer : list T;
  m_writeIndex : Z;
  m_readIndex : Z
}.

(** [v[i] = x] *)
Definition store (v : list T) (i : Z) (x : T) : outcome (list T) :=
  if bool_decide (0 <= i < Z.of_nat (length v))
  then Done (<[Z.to_nat i := x]> v)
  else OutOfBounds.

(** [v[i]] *)
Definition fetch (v : list T) (i : Z) : outcome T :=
  if bool_decide (0 <= i)
  then match v !! Z.to_nat i with
       | Some x => Done x
       | None => OutOfBounds
       end
  else OutOfBounds.

(** ** Constructor *)

(** [while (powerOf2 < capacity) powerOf2 <<= 1;] — [None] when the fuel
    runs out before the loop exits. *)
Fixpoint round_up_loop (fuel : nat) (powerOf2 capacity : Z) : option Z :=
  if powerOf2 <? capacity then
    match fuel with
    | O => None
    | S fuel' => round_up_loop fuel' (wrap (Z.shiftl powerOf2 1)) capacity
    end
  else Some powerOf2.

Definition construct (fuel : nat) (capacity : Z) : option CircularQueue :=
  let q := mkQueue capacity (wrap (capacity - 1))
                   (replicate (Z.to_nat capacity) dflt) 0 0 in
  if negb (Z.land capacity (wrap (capacity - 1)) =? 0) then
    match round_up_loop fuel 1 capacity with
    | Some powerOf2 =>
        Some (mkQueue powerOf2 (wrap (powerOf2 - 1))
                      (resize (Z.to_nat powerOf2) dflt (m_buffer q)) 0 0)
    | None => None
    end
  else Some q.

(** ** Operations *)

Definition enqueue (q : CircularQueue) (item : T) : outcome (bool * CircularQueue) :=
  let currentWrite := m_writeIndex q in
  let nextWrite := Z.land (wrap (currentWrite + 1)) (m_mask q) in
  if nextWrite =? m_readIndex q then Done (false, q)
  else
    buf ← store (m_buffer q) currentWrite item;
    Done (true, mkQueue (m_capacity q) (m_mask q) buf nextWrite (m_readIndex q)).

Definition forceEnqueue (q : CircularQueue) (item : T) : outcome CircularQueue :=
  let currentWrite := m_writeIndex q in
  let nextWrite := Z.land (wrap (currentWrite + 1)) (m_mask q) in
  let readIndex :=
    if nextWrite =? m_readIndex q
    then Z.land (wrap (m_readIndex q + 1)) (m_mask q)
    else m_readIndex q in
  buf ← store (m_buffer q) currentWrite item;
  Done (mkQueue (m_capacity q) (m_mask q) buf nextWrite readIndex).

(** [item] is the reference parameter: its value before the call goes in,
    its value after the call comes out. *)
Definition dequeue (q : CircularQueue) (item : T) : outcome (bool * T * CircularQueue) :=
  let currentRead := m_readIndex q in
  if currentRead =? m_writeIndex q then Done (false, item, q)
  else
    x ← fetch (m_buffer q) currentRead;
    Done (true, x,
          mkQueue (m_capacity q) (m_mask q) (m_buffer q) (m_writeIndex q)
                  (Z.land (wrap (currentRead + 1)) (m_mask q))).

Definition isEmpty (q : CircularQueue) : bool :=
  m_readIndex q =? m_writeIndex q.

Definition isFull (q : CircularQueue) : bool :=
  let nextWrite := Z.land (wrap (m_writeIndex q + 1)) (m_mask q) in
  nextWrite =? m_readIndex q.

Definition size (q : CircularQueue) : Z :=
  let write := m_writeIndex q in
  let read := m_readIndex q in
  Z.land (wrap (write - read)) (m_mask q).

Definition capacity (q : CircularQueue) : Z := m_capacity q.

Definition clear (q : CircularQueue) : CircularQueue :=
  mkQueue (m_capacity q) (m_mask q) (m_buffer q) (m_writeIndex q) (m_writeIndex q).

(** [static_cast<double>(n)] for [n : size_t]. *)
Definition double_of_size_t (n : Z) : spec_float :=
  binary_normalize 53 1024 n 0 false.

Definition getUsageRatio (q : CircularQueue) : spec_float :=
  SFdiv 53 1024 (double_of_size_t (size q)) (double_of_size_t (m_capacity q)).

(** ** Call sequences *)

Inductive op : Type :=
  | Enqueue (item : T)
  | ForceEnqueue (item : T)
  | Dequeue (item : T)
  | Clear.

(** The buffer after one call. *)
Definition step (q : CircularQueue) (o : op) : outcome CircularQueue :=
  match o with
  | Enqueue item => r ← enqueue q item; Done r.2
  | ForceEnqueue item => forceEnqueue q item
  | Dequeue item => r ← dequeue q item; Done r.2
  | Clear => Done (clear q)
  end.

(** The buffers a program can hold after constructing one with the
    requested capacity [c] and calling any operations on it. *)
Inductive reachable (c : Z) : CircularQueue -> Prop :=
  | reachable_construct fuel q :
      is_size_t c -> construct fuel c = Some q -> reachable c q
  | reachable_step q o q' :
      reachable c q -> step q o = Done q' -> reachable c q'.

(** [enqueue] called on each value in turn; the list of return values. *)
Fixpoint enqueue_all (q : CircularQueue) (vs : list T)
  : outcome (list bool * CircularQueue) :=
  match vs with
  | [] => Done ([], q)
  | v :: vs' =>
      r ← enqueue q v;
      rs ← enqueue_all r.2 vs';
      Done (r.1 :: rs.1, rs.2)
  end.

(** [dequeue] called [n] times on the same variable [item]; for each call
    its return value and the value of [item] after it. *)
Fixpoint dequeue_n (n : nat) (q : CircularQueue) (item : T)
  : outcome (list (bool * T) * CircularQueue) :=
  match n with
  | O => Done ([], q)
  | S n' =>
      r ← dequeue q item;
      rs ← dequeue_n n' r.2 r.1.2;
      Done (r.1 :: rs.1, rs.2)
  end.

(** The same [n] calls on the list of pending elements, oldest first: a
    call on the empty list fails and leaves [item] as it was. *)
Fixpoint fifo_dequeue_n (n : nat) (l : list T) (item : T) : list (bool * T) :=
  match n with
  | O => []
  | S n' =>
      match l with
      | [] => (false, item) :: fifo_dequeue_n n' [] item
      | x :: l' => (true, x) :: fifo_dequeue_n n' l' x
      end
  end.

(** The value a call delivers: the element of a successful [dequeue],
    [None] for any other call. *)
Definition delivered (q : CircularQueue) (o : op) : outcome (option T) :=
  match o with
  | Dequeue item =>
      match dequeue q item with
      | Done (b, x, _) => Done (if b then Some x else None)
      | OutOfBounds => OutOfBounds
      end
  | _ => Done None
  end.

(** A sequence of calls: what each call delivered, and the buffer after
    the last one. *)
Fixpoint run (q : CircularQueue) (os : list op)
  : outcome (list (option T) * CircularQueue) :=
  match os with
  | [] => Done ([], q)
  | o :: os' =>
      v ← delivered q o;
      q' ← step q o;
      rs ← run q' os';
      Done (v :: rs.1, rs.2)
  end.

(** One call on the list of pending elements of a buffer of [cap] slots,
    oldest first: the value delivered and the list afterwards. *)
Definition fifo_step (cap : Z) (l : list T) (o : op) : option T * list T :=
  match o with
  | Enqueue item =>
      (None, if Z.of_nat (length l) =? cap - 1 then l else l ++ [item])
  | ForceEnqueue item =>
      (None, if Z.of_nat (length l) =? cap - 1
             then drop 1 (l ++ [item]) else l ++ [item])
  | Dequeue _ => (head l, drop 1 l)
  | Clear => (None, [])
  end.

Fixpoint fifo_run (cap : Z) (l : list T) (os : list op)
  : list (option T) * list T :=
  match os with
  | [] => ([], l)
  | o :: os' =>
      let r := fifo_step cap l o in
      let rs := fifo_run cap r.2 os' in
      (r.1 :: rs.1, rs.2)
  end.

(** The values the calls of [os] hand to the buffer. *)
Fixpoint inserted (os : list op) : list T :=
  match os with
  | [] => []
  | Enqueue item :: os' => item :: inserted os'
  | ForceEnqueue item :: os' => item :: inserted os'
  | _ :: os' => inserted os'
  end.

(** ** Invariants of the data model *)

Definition is_pow2 (n : Z) : Prop := exists k, 0 <= k /\ n = 2 ^ k.

(** [p] is the least power of two that is at least [c]. *)
Definition least_pow2_ge (c p : Z) : Prop :=
  is_pow2 p /\ c <= p /\ forall p', is_pow2 p' -> c <= p' -> p <= p'.

Definition wf (q : CircularQueue) : Prop :=
  (exists k, 0 <= k < size_bits /\ m_capacity q = 2 ^ k) /\
  m_mask q = m_capacity q - 1 /\
  Z.of_nat (length (m_buffer q)) = m_capacity q /\
  0 <= m_writeIndex q < m_capacity q /\
  0 <= m_readIndex q < m_capacity q.

(** The slot that holds the [i]-th pending element. *)
Definition slot_of (q : CircularQueue) (i : nat) : Z :=
  (m_readIndex q + Z.of_nat i) mod m_capacity q.

(** [l] is the sequence of pending elements of [q], oldest first. *)
Definition rep (q : CircularQueue) (l : list T) : Prop :=
  wf q /\
  Z.of_nat (length l) = (m_writeIndex q - m_readIndex q) mod m_capacity q /\
  forall (i : nat) (x : T), l !! i = Some x ->
    m_buffer q !! Z.to_nat (slot_of q i) = Some x.

(** The buffer a request of 0 builds. *)
Definition degenerate (q : CircularQueue) : Prop :=
  q = mkQueue 0 SIZE_MAX [] 0 0.

End Queue.

Arguments CircularQueue T : clear implicits.
Arguments op T : clear implicits.

(** ** Calls and what they return *)

Section Calls.

Context {T : Type}.

(** The pending elements, oldest first: the [size()] slots from the read
    cursor on, wrapping at the capacity. *)
Definition contents (q : CircularQueue T) : list T :=
  omap (fun i => m_buffer q !! Z.to_nat (slot_of q i))
       (seq 0 (Z.to_nat (size q))).

(** What a call hands back: the [bool] of [enqueue]; nothing for
    [forceEnqueue] and [clear]; the [bool] of [dequeue] with the value of
    its output parameter after the call. *)
Inductive result : Type :=
  | RBool (b : bool)
  | RVoid
  | RItem (b : bool) (item : T).

(** One call: what it returns and the buffer after it. *)
Definition call (q : CircularQueue T) (o : op T)
  : outcome (result * CircularQueue T) :=
  match o with
  | Enqueue item =>
      match enqueue q item with
      | Done (b, q') => Done (RBool b, q')
      | OutOfBounds => OutOfBounds
      end
  | ForceEnqueue item =>
      match forceEnqueue q item with
      | Done q' => Done (RVoid, q')
      | OutOfBounds => OutOfBounds
      end
  | Dequeue item =>
      match dequeue q item with
      | Done (b, x, q') => Done (RItem b x, q')
      | OutOfBounds => OutOfBounds
      end
  | Clear => Done (RVoid, clear q)
  end.

(** A sequence of calls, one after the other. *)
Fixpoint calls (q : CircularQueue T) (os : list (op T))
  : outcome (list result * CircularQueue T) :=
  match os with
  | [] => Done ([], q)
  | o :: os' =>
      match call q o with
      | Done (r, q') =>
          match calls q' os' with
          | Done (rs, q'') => Done (r :: rs, q'')
          | OutOfBounds => OutOfBounds
          end
      | OutOfBounds => OutOfBounds
      end
  end.

(** The same call on a bounded first-in first-out list that holds at most
    [cap - 1] elements. *)
Definition fifo_call (cap : Z) (l : list T) (o : op T) : result * list T :=
  match o with
  | Enqueue item =>
      if Z.of_nat (length l) =? cap - 1
      then (RBool false, l)
      else (RBool true, l ++ [item])
  | ForceEnqueue item =>
      (RVoid, if Z.of_nat (length l) =? cap - 1
              then drop 1 (l ++ [item]) else l ++ [item])
  | Dequeue item =>
      match l with
      | [] => (RItem false item, [])
      | x :: l' => (RItem true x, l')
      end
  | Clear => (RVoid, [])
  end.

Fixpoint fifo_calls (cap : Z) (l : list T) (os : list (op T))
  : list result * list T :=
  match os with
  | [] => ([], l)
  | o :: os' =>
      let r := fifo_call cap l o in
      let rs := fifo_calls cap r.2 os' in
      (r.1 :: rs.1, rs.2)
  end.

(** The values the calls of [enqueue] that returned true inserted. *)
Fixpoint accepted (os : list (op T)) (rs : list result) : list T :=
  match os, rs with
  | Enqueue item :: os', RBool true :: rs' => item :: accepted os' rs'
  | _ :: os', _ :: rs' => accepted os' rs'
  | _, _ => []
  end.

(** The values the calls of [dequeue] that returned true delivered. *)
Fixpoint taken (rs : list result) : list T :=
  match rs with
  | RItem true x :: rs' => x :: taken rs'
  | _ :: rs' => taken rs'
  | [] => []
  end.

(** Only [enqueue] and [dequeue]: the calls that lose no element. *)
Definition lossless (o : op T) : bool :=
  match o with
  | Enqueue _ | Dequeue _ => true
  | ForceEnqueue _ | Clear => false
  end.

(** [enqueue v] then [dequeue], for each value in turn. *)
Definition pump (vs : list T) (item : T) : list (op T) :=
  flat_map (fun v => [Enqueue v; Dequeue item]) vs.

End Calls.

Arguments result T : clear implicits.

(** ** Reading a [double] *)

(** The 53-bit mantissa of a positive integer of at most 53 bits: the
    integer shifted left until its leading bit is bit 52. *)
Definition mantissa53 (p : positive) : positive :=
  match (53 - Zpos (digits2_pos p))%Z with
  | Zpos n => Pos.iter xO p n
  | _ => p
  end.

(** The real number [f] stands for is exactly [n / d]: with [f] the
    number [m * 2^e], [m * 2^e * d = n], written without negative
    powers. *)
Definition is_quotient (f : spec_float) (n d : Z) : Prop :=
  match f with
  | S754_zero _ => n = 0
  | S754_finite s m e =>
      (if s then Zneg m else Zpos m) * 2 ^ Z.max e 0 * d
      = n * 2 ^ Z.max (- e) 0
  | _ => False
  end.

(** * Arithmetic of the cursors *)

Lemma two_pow_size_bits : 2 ^ size_bits = 18446744073709551616.
Proof. reflexivity. Qed.

Lemma wrap_range z : 0 <= wrap z < 2 ^ size_bits.
Proof. unfold wrap. apply Z.mod_pos_bound. rewrite two_pow_size_bits. lia. Qed.

Lemma wrap_small z : 0 <= z < 2 ^ size_bits -> wrap z = z.
Proof. intros H. unfold wrap. by apply Z.mod_small. Qed.

Lemma pow2_pos k : 0 <= k -> 0 < 2 ^ k.
Proof. intros. apply Z.pow_pos_nonneg; lia. Qed.

Lemma pow2_le_word k : 0 <= k < size_bits -> 2 * 2 ^ k <= 2 ^ size_bits.
Proof.
  intros H. replace (2 * 2 ^ k) with (2 ^ (k + 1)).
  - apply Z.pow_le_mono_r; unfold size_bits in *; lia.
  - rewrite Z.pow_add_r by lia. lia.
Qed.

(** Masking a wrapped value with [2^k - 1] is reduction modulo [2^k]. *)
Lemma land_wrap_mask k z :
  0 <= k < size_bits -> Z.land (wrap z) (2 ^ k - 1) = z mod 2 ^ k.
Proof.
  intros Hk. replace (2 ^ k - 1) with (Z.ones k) by (rewrite Z.ones_equiv; lia).
  rewrite Z.land_ones by lia. unfold wrap.
  apply Z.mod_mod_divide.
  exists (2 ^ (size_bits - k)). rewrite <- Z.pow_add_r by lia.
  f_equal. lia.
Qed.

(** A value at most one period away from [0, c) is reduced by one step. *)
Lemma mod_one_step c x :
  0 < c -> - c <= x < 2 * c ->
  x mod c = if x <? 0 then x + c else if x <? c then x else x - c.
Proof.
  intros Hc Hx.
  destruct (Z.ltb_spec x 0); [|destruct (Z.ltb_spec x c)].
  - symmetry. apply (Z.mod_unique_pos _ _ (-1)); lia.
  - apply Z.mod_small. lia.
  - symmetry. apply (Z.mod_unique_pos _ _ 1); lia.
Qed.

(** Rewrites every [x mod c] that is one step away from [0, c), then
    splits on the comparisons. *)
Ltac mod_steps :=
  repeat match goal with
    | H : context [?x mod ?c] |- _ => rewrite (mod_one_step c x) in H by lia
    | |- context [?x mod ?c] => rewrite (mod_one_step c x) by lia
    | H : context [?a <? ?b] |- _ => destruct (Z.ltb_spec a b)
    | |- context [?a <? ?b] => destruct (Z.ltb_spec a b)
    end;
  try lia.

(** * Well-formed buffers *)

Section WellFormed.

Context {T : Type}.
Implicit Types (q : CircularQueue T) (l : list T) (x item : T).

Lemma wf_capacity_pos q : wf q -> 0 < m_capacity q.
Proof. intros ((k & Hk & ->) & _). apply pow2_pos. lia. Qed.

Lemma wf_capacity_le q : wf q -> 2 * m_capacity q <= 2 ^ size_bits.
Proof. intros ((k & Hk & ->) & _). by apply pow2_le_word. Qed.

Lemma wf_mask q z : wf q -> Z.land (wrap z) (m_mask q) = z mod m_capacity q.
Proof. intros ((k & Hk & Hc) & -> & _). rewrite Hc. by apply land_wrap_mask. Qed.

Lemma wf_size q :
  wf q -> size q = (m_writeIndex q - m_readIndex q) mod m_capacity q.
Proof. intros Hq. unfold size. by rewrite wf_mask. Qed.

Lemma wf_isFull q :
  wf q -> isFull q = ((m_writeIndex q + 1) mod m_capacity q =? m_readIndex q).
Proof. intros Hq. unfold isFull. by rewrite wf_mask. Qed.

Lemma wf_size_bound q : wf q -> 0 <= size q <= m_capacity q - 1.
Proof.
  intros Hq. rewrite wf_size by done.
  pose proof (wf_capacity_pos q Hq).
  pose proof (Z.mod_pos_bound (m_writeIndex q - m_readIndex q) (m_capacity q)).
  lia.
Qed.

Lemma wf_isFull_size q :
  wf q -> isFull q = true <-> size q = m_capacity q - 1.
Proof.
  intros Hq. rewrite wf_isFull, wf_size by done. rewrite Z.eqb_eq.
  pose proof (wf_capacity_pos q Hq).
  destruct Hq as (_ & _ & _ & Hw & Hr).
  split; intros; mod_steps.
Qed.

Lemma wf_isEmpty_size q : wf q -> isEmpty q = true <-> size q = 0.
Proof.
  intros Hq. rewrite wf_size by done. unfold isEmpty. rewrite Z.eqb_eq.
  pose proof (wf_capacity_pos q Hq).
  destruct Hq as (_ & _ & _ & Hw & Hr).
  split; intros; mod_steps.
Qed.

Lemma wf_clear q : wf q -> wf (clear q).
Proof. intros (? & ? & ? & ? & ?). repeat split; cbn; try done; lia. Qed.

Lemma store_in_range (v : list T) i x :
  0 <= i < Z.of_nat (length v) -> store v i x = Done (<[Z.to_nat i := x]> v).
Proof. intros H. unfold store. by rewrite bool_decide_eq_true_2. Qed.

Lemma wf_enqueue q item r :
  wf q -> enqueue q item = Done r -> wf r.2.
Proof.
  intros Hq. unfold enqueue. case_match; [by intros [= <-]|].
  pose proof (wf_capacity_pos q Hq).
  pose proof Hq as (Hc & Hm & Hl & Hw & Hr).
  rewrite store_in_range by lia. cbn. intros [= <-].
  rewrite wf_mask by done. unfold wf; cbn. rewrite length_insert.
  pose proof (Z.mod_pos_bound (m_writeIndex q + 1) (m_capacity q)).
  repeat split; try done; lia.
Qed.

Lemma wf_forceEnqueue q item q' :
  wf q -> forceEnqueue q item = Done q' -> wf q'.
Proof.
  intros Hq. unfold forceEnqueue.
  pose proof (wf_capacity_pos q Hq).
  pose proof Hq as (Hc & Hm & Hl & Hw & Hr).
  rewrite store_in_range by lia. cbn. intros [= <-].
  rewrite !wf_mask by done. unfold wf; cbn. rewrite length_insert.
  pose proof (Z.mod_pos_bound (m_writeIndex q + 1) (m_capacity q)).
  pose proof (Z.mod_pos_bound (m_readIndex q + 1) (m_capacity q)).
  repeat split; try done; try lia; case_match; lia.
Qed.

Lemma wf_dequeue q item r :
  wf q -> dequeue q item = Done r -> wf r.2.
Proof.
  intros Hq. unfold dequeue. case_match; [by intros [= <-]|].
  destruct (fetch _ _) as [x|]; [|done]. cbn. intros [= <-].
  rewrite wf_mask by done. unfold wf; cbn.
  pose proof (wf_capacity_pos q Hq).
  destruct Hq as (Hc & Hm & Hl & Hw & Hr).
  pose proof (Z.mod_pos_bound (m_readIndex q + 1) (m_capacity q)).
  repeat split; try done; lia.
Qed.

Lemma wf_step q o q' : wf q -> step q o = Done q' -> wf q'.
Proof.
  intros Hq. destruct o as [item|item|item|]; cbn.
  - destruct (enqueue q item) as [r|] eqn:E; [|done]. cbn. intros [= <-].
    by eapply wf_enqueue.
  - by apply wf_forceEnqueue.
  - destruct (dequeue q item) as [r|] eqn:E; [|done]. cbn. intros [= <-].
    by eapply wf_dequeue.
  - intros [= <-]. by apply wf_clear.
Qed.

End WellFormed.

(** * The pending elements as a list *)

Section Representation.

Context {T : Type}.
Implicit Types (q : CircularQueue T) (l vs : list T) (x item : T).

Lemma rep_wf q l : rep q l -> wf q.
Proof. by intros (? & _). Qed.

Lemma rep_length q l : rep q l -> Z.of_nat (length l) = size q.
Proof. intros (Hq & Hl & _). by rewrite wf_size. Qed.

Lemma rep_empty q : wf q -> isEmpty q = true -> rep q [].
Proof.
  intros Hq He. split; [done|]. split; [|by intros i x; rewrite lookup_nil].
  apply wf_isEmpty_size in He; [|done]. rewrite wf_size in He by done.
  by rewrite He.
Qed.

Lemma rep_nil_isEmpty q : rep q [] -> isEmpty q = true.
Proof.
  intros Hr. apply wf_isEmpty_size; [by eapply rep_wf|].
  by rewrite <- (rep_length q []).
Qed.

Lemma enqueue_full q item : isFull q = true -> enqueue q item = Done (false, q).
Proof. unfold isFull, enqueue. by intros ->. Qed.

Lemma enqueue_rep q l item :
  rep q l -> isFull q = false ->
  exists q', enqueue q item = Done (true, q') /\ rep q' (l ++ [item]) /\
             m_capacity q' = m_capacity q.
Proof.
  intros (Hq & Hlen & Hslots) Hfull.
  pose proof (wf_capacity_pos q Hq) as Hpos.
  pose proof Hq as (Hc & Hm & Hl & Hw & Hr).
  rewrite wf_isFull in Hfull by done. apply Z.eqb_neq in Hfull.
  unfold enqueue. rewrite wf_mask by done.
  destruct (Z.eqb_spec ((m_writeIndex q + 1) mod m_capacity q) (m_readIndex q));
    [done|].
  rewrite store_in_range by lia. cbn.
  eexists. split; [done|]. split; [|done].
  assert (Hq' : wf (mkQueue (m_capacity q) (m_mask q)
                      (<[Z.to_nat (m_writeIndex q) := item]> (m_buffer q))
                      ((m_writeIndex q + 1) mod m_capacity q) (m_readIndex q))).
  { unfold wf; cbn. rewrite length_insert.
    pose proof (Z.mod_pos_bound (m_writeIndex q + 1) (m_capacity q)).
    repeat split; try done; lia. }
  split; [done|]. cbn. split.
  - rewrite length_app, Nat2Z.inj_add, Hlen. cbn. mod_steps.
  - intros i x Hi. unfold slot_of; cbn.
    destruct (decide (i < length l)%nat) as [Hlt|Hge].
    + rewrite lookup_app_l in Hi by done.
      rewrite list_lookup_insert_ne; [by apply Hslots|].
      intros Heq. apply Z2Nat.inj in Heq; [|lia|apply Z.mod_pos_bound; lia].
      mod_steps.
    + apply lookup_lt_Some in Hi as Hi'. rewrite length_app in Hi'. cbn in Hi'.
      assert (i = length l) as -> by lia.
      rewrite lookup_app_r, Nat.sub_diag in Hi by done. injection Hi as <-.
      replace ((m_readIndex q + Z.of_nat (length l)) mod m_capacity q)
        with (m_writeIndex q) by mod_steps.
      apply list_lookup_insert_eq. lia.
Qed.

Lemma dequeue_empty q item :
  isEmpty q = true -> dequeue q item = Done (false, item, q).
Proof. unfold isEmpty, dequeue. by intros ->. Qed.

Lemma dequeue_rep q x l item :
  rep q (x :: l) ->
  exists q', dequeue q item = Done (true, x, q') /\ rep q' l /\
             m_capacity q' = m_capacity q.
Proof.
  intros (Hq & Hlen & Hslots).
  pose proof (wf_capacity_pos q Hq) as Hpos.
  pose proof Hq as (Hc & Hm & Hl & Hw & Hr).
  cbn [length] in Hlen. rewrite Nat2Z.inj_succ in Hlen.
  unfold dequeue. rewrite wf_mask by done.
  destruct (Z.eqb_spec (m_readIndex q) (m_writeIndex q)) as [Heq|Hne].
  { rewrite Heq, Z.sub_diag, Z.mod_0_l in Hlen by lia. lia. }
  pose proof (Hslots 0%nat x eq_refl) as H0. unfold slot_of in H0. cbn in H0.
  rewrite Z.add_0_r, Z.mod_small in H0 by lia.
  unfold fetch. rewrite bool_decide_eq_true_2, H0 by lia. cbn.
  eexists. split; [done|]. split; [|done].
  split; [|split]; cbn.
  - unfold wf; cbn.
    pose proof (Z.mod_pos_bound (m_readIndex q + 1) (m_capacity q)).
    repeat split; try done; lia.
  - mod_steps.
  - intros i y Hi. unfold slot_of; cbn.
    specialize (Hslots (S i) y Hi). unfold slot_of in Hslots.
    apply lookup_lt_Some in Hi.
    replace (((m_readIndex q + 1) mod m_capacity q + Z.of_nat i) mod m_capacity q)
      with ((m_readIndex q + Z.of_nat (S i)) mod m_capacity q); [done|].
    rewrite Nat2Z.inj_succ. mod_steps.
Qed.

Lemma forceEnqueue_rep q l item :
  rep q l ->
  exists q', forceEnqueue q item = Done q' /\
             rep q' (if isFull q then drop 1 (l ++ [item]) else l ++ [item]) /\
             m_capacity q' = m_capacity q.
Proof.
  intros Hrep. destruct (isFull q) eqn:Hfull.
  - destruct Hrep as (Hq & Hlen & Hslots).
    pose proof (wf_capacity_pos q Hq) as Hpos.
    pose proof Hq as (Hc & Hm & Hl & Hw & Hr).
    rewrite wf_isFull in Hfull by done. apply Z.eqb_eq in Hfull.
    unfold forceEnqueue. rewrite !wf_mask by done.
    rewrite Hfull, Z.eqb_refl. rewrite store_in_range by lia. cbn.
    eexists. split; [done|]. split; [|done].
    split; [|split]; cbn.
    + unfold wf; cbn. rewrite length_insert.
      pose proof (Z.mod_pos_bound (m_readIndex q + 1) (m_capacity q)).
      repeat split; try done; lia.
    + rewrite length_drop, length_app. cbn.
      replace (length l + 1 - 1)%nat with (length l) by lia.
      rewrite Hlen. mod_steps.
    + intros i x Hi. unfold slot_of; cbn. rewrite lookup_drop in Hi.
      apply lookup_lt_Some in Hi as Hi'. rewrite length_app in Hi'. cbn in Hi'.
      destruct (decide (1 + i < length l)%nat) as [Hlt|Hge].
      * rewrite lookup_app_l in Hi by done.
        specialize (Hslots _ _ Hi). unfold slot_of in Hslots.
        rewrite list_lookup_insert_ne.
        -- replace (((m_readIndex q + 1) mod m_capacity q + Z.of_nat i)
                      mod m_capacity q)
             with ((m_readIndex q + Z.of_nat (1 + i)) mod m_capacity q); [done|].
           rewrite Nat2Z.inj_add. change (Z.of_nat 1) with 1. mod_steps.
        -- intros Heq. apply Z2Nat.inj in Heq;
             [|lia|apply Z.mod_pos_bound; lia].
           mod_steps.
      * assert (1 + i = length l)%nat as Hi'' by lia.
        rewrite lookup_app_r, Hi'', Nat.sub_diag in Hi by lia.
        injection Hi as <-.
        replace (((m_readIndex q + 1) mod m_capacity q + Z.of_nat i)
                   mod m_capacity q)
          with (m_writeIndex q) by mod_steps.
        apply list_lookup_insert_eq. lia.
  - destruct (enqueue_rep q l item Hrep Hfull) as (q' & He & Hr' & Hc').
    exists q'. split; [|done].
    unfold enqueue in He. unfold forceEnqueue.
    unfold isFull in Hfull. rewrite Hfull in He |- *.
    destruct (store _ _ _); [|done]. cbn in He |- *. by injection He as <-.
Qed.

Lemma clear_rep q : wf q -> rep (clear q) [].
Proof.
  intros Hq. apply rep_empty; [by apply wf_clear|].
  unfold isEmpty, clear; cbn. apply Z.eqb_refl.
Qed.

End Representation.

(** * The constructor *)

Section Construction.

Context {T : Type}.
Variable dflt : T.
Implicit Types (q : CircularQueue T) (c p : Z).

Lemma is_pow2_pos p : is_pow2 p -> 0 < p.
Proof. intros (k & Hk & ->). by apply pow2_pos. Qed.

(** The constructor's test accepts every power of two. *)
Lemma pow2_test_accepts c :
  is_pow2 c -> c <= SIZE_MAX -> Z.land c (wrap (c - 1)) = 0.
Proof.
  intros (k & Hk & ->) Hle. pose proof (pow2_pos k Hk).
  rewrite wrap_small by (unfold SIZE_MAX in Hle; lia).
  replace (2 ^ k - 1) with (Z.ones k) by (rewrite Z.ones_equiv; lia).
  rewrite Z.land_ones by lia. apply Z.mod_same. lia.
Qed.

(** A positive value the test accepts is a power of two. *)
Lemma pow2_test_sound c :
  0 < c <= SIZE_MAX -> Z.land c (wrap (c - 1)) = 0 -> is_pow2 c.
Proof.
  intros Hc Hland. rewrite wrap_small in Hland by (unfold SIZE_MAX in Hc; lia).
  pose proof (Z.log2_spec c ltac:(lia)) as Hlog.
  pose proof (Z.log2_nonneg c) as Hnn.
  exists (Z.log2 c). split; [done|].
  destruct (decide (c = 2 ^ Z.log2 c)) as [|Hne]; [done|exfalso].
  assert (Z.testbit (Z.land c (c - 1)) (Z.log2 c) = true) as Hbit.
  { rewrite Z.land_spec, Z.bit_log2 by lia. cbn.
    replace (Z.log2 c) with (Z.log2 (c - 1))
      by (apply Z.log2_unique; lia).
    apply Z.bit_log2. lia. }
  rewrite Hland, Z.bits_0 in Hbit. done.
Qed.

Lemma round_up_loop_zero fuel c : 0 < c -> round_up_loop fuel 0 c = None.
Proof.
  intros Hc. induction fuel as [|fuel IH]; cbn.
  - by destruct (Z.ltb_spec 0 c); [|lia].
  - destruct (Z.ltb_spec 0 c); [|lia]. exact IH.
Qed.

Lemma shiftl_pow2 i :
  0 <= i < size_bits - 1 -> wrap (Z.shiftl (2 ^ i) 1) = 2 ^ (i + 1).
Proof.
  intros Hi. rewrite Z.shiftl_mul_pow2 by lia.
  replace (2 ^ i * 2 ^ 1) with (2 ^ (i + 1)) by (rewrite Z.pow_add_r; lia).
  apply wrap_small. split; [apply Z.lt_le_incl, pow2_pos; lia|].
  apply Z.pow_lt_mono_r; lia.
Qed.

(** What the loop returns, when it returns. *)
Lemma round_up_loop_some fuel i c p :
  0 <= i < size_bits -> (i = 0 \/ 2 ^ (i - 1) < c) ->
  round_up_loop fuel (2 ^ i) c = Some p ->
  exists j, i <= j < size_bits /\ p = 2 ^ j /\ c <= 2 ^ j /\
            (j = 0 \/ 2 ^ (j - 1) < c).
Proof.
  revert i. induction fuel as [|fuel IH]; intros i Hi Hlow; cbn;
    destruct (Z.ltb_spec (2 ^ i) c) as [Hlt|Hge]; try done;
    try (intros [= <-]; exists i; repeat split; (done || lia)).
  destruct (decide (i = size_bits - 1)) as [->|Hne].
  - change (wrap (Z.shiftl (2 ^ (size_bits - 1)) 1)) with 0.
    rewrite round_up_loop_zero; [done|].
    pose proof (pow2_pos (size_bits - 1)). unfold size_bits in *. lia.
  - rewrite shiftl_pow2 by lia. intros Hp.
    destruct (IH (i + 1)) as (j & Hj & ? & ? & ?); try done; try lia.
    { right. by replace (i + 1 - 1) with i by lia. }
    exists j. repeat split; (done || lia).
Qed.

(** The loop exits within [size_bits] rounds when a power of two of the
    word is large enough. *)
Lemma round_up_loop_terminates fuel i c :
  0 <= i < size_bits -> c <= 2 ^ (size_bits - 1) ->
  (Z.to_nat size_bits <= fuel + Z.to_nat i)%nat ->
  is_Some (round_up_loop fuel (2 ^ i) c).
Proof.
  revert i. induction fuel as [|fuel IH]; intros i Hi Hc Hfuel; cbn;
    destruct (Z.ltb_spec (2 ^ i) c) as [Hlt|Hge]; try done.
  - unfold size_bits in *. lia.
  - assert (i < size_bits - 1) as Hi'.
    { apply (Z.pow_lt_mono_r_iff 2); [lia|unfold size_bits; lia|lia]. }
    rewrite shiftl_pow2 by lia. apply IH; try done; lia.
Qed.

Lemma least_pow2_ge_intro c j :
  0 <= j -> c <= 2 ^ j -> (j = 0 \/ 2 ^ (j - 1) < c) ->
  least_pow2_ge c (2 ^ j).
Proof.
  intros Hj Hle Hlow. split; [by exists j|]. split; [done|].
  intros p' (k & Hk & ->) Hc. apply Z.pow_le_mono_r; [lia|].
  destruct Hlow as [->|Hlow]; [done|].
  assert (j - 1 < k); [|lia].
  apply (Z.pow_lt_mono_r_iff 2); lia.
Qed.

Lemma least_pow2_ge_self c : is_pow2 c -> least_pow2_ge c c.
Proof. intros Hc. split; [done|]. split; [lia|]. by intros p' _ ?. Qed.

Lemma least_pow2_ge_unique c p p' :
  least_pow2_ge c p -> least_pow2_ge c p' -> p = p'.
Proof.
  intros (Hp & Hcp & Hmin) (Hp' & Hcp' & Hmin').
  specialize (Hmin p' Hp' Hcp'). specialize (Hmin' p Hp Hcp). lia.
Qed.

Lemma pow2_size_t_log k : 0 <= k -> 2 ^ k <= SIZE_MAX -> k < size_bits.
Proof.
  intros Hk Hle. apply (Z.pow_lt_mono_r_iff 2); [lia|unfold size_bits; lia|].
  unfold SIZE_MAX in Hle. lia.
Qed.

Lemma construct_zero fuel :
  construct dflt fuel 0 = Some (mkQueue 0 SIZE_MAX [] 0 0).
Proof. reflexivity. Qed.

(** Every buffer the constructor returns, whatever the fuel. *)
Lemma construct_some fuel c q :
  is_size_t c -> construct dflt fuel c = Some q ->
  m_writeIndex q = 0 /\ m_readIndex q = 0 /\
  ((c = 0 /\ degenerate q) \/
   (1 <= c /\ wf q /\ least_pow2_ge c (m_capacity q))).
Proof.
  intros Hc. unfold construct.
  destruct (Z.eqb_spec (Z.land c (wrap (c - 1))) 0) as [Htest|Htest]; cbn.
  - intros [= <-]. cbn. do 2 (split; [done|]).
    destruct (decide (c = 0)) as [->|Hne]; [by left|right].
    unfold is_size_t in Hc.
    destruct (pow2_test_sound c) as (k & Hk & ->); [lia|done|].
    pose proof (pow2_size_t_log k Hk ltac:(lia)).
    pose proof (pow2_pos k Hk).
    split; [lia|]. split; [|apply least_pow2_ge_self; by exists k].
    unfold wf; cbn. rewrite length_replicate, Z2Nat.id by lia.
    rewrite wrap_small by (unfold SIZE_MAX in Hc; lia).
    repeat split; try lia. by exists k.
  - destruct (round_up_loop fuel 1 c) as [p|] eqn:Hloop; [|done].
    intros [= <-]. cbn. do 2 (split; [done|]). right.
    assert (c <> 0) as Hne by (intros ->; by apply Htest).
    unfold is_size_t in Hc.
    destruct (round_up_loop_some fuel 0 c p) as (j & Hj & -> & Hle & Hlow);
      [unfold size_bits; lia|by left|done|].
    pose proof (pow2_pos j ltac:(lia)).
    pose proof (pow2_le_word j Hj). 
    split; [lia|]. split; [|apply least_pow2_ge_intro; (done || lia)].
    unfold wf; cbn. rewrite length_resize, Z2Nat.id by lia.
    rewrite wrap_small by lia.
    repeat split; try lia. by exists j.
Qed.

(** The constructor returns for every request up to [2^63]. *)
Lemma construct_returns c :
  0 <= c <= 2 ^ (size_bits - 1) ->
  is_Some (construct dflt (Z.to_nat size_bits) c).
Proof.
  intros Hc. unfold construct.
  destruct (negb _); [|done].
  destruct (round_up_loop_terminates (Z.to_nat size_bits) 0 c) as [p Hp];
    try (done || lia).
  change (2 ^ 0) with 1 in Hp. by rewrite Hp.
Qed.

End Construction.

(** * Sequences of calls *)

Section Sequences.

Context {T : Type}.
Variable dflt : T.
Implicit Types (q : CircularQueue T) (l vs : list T) (x item : T).

Lemma enqueue_all_rep q l vs :
  rep q l -> Z.of_nat (length l + length vs) <= m_capacity q - 1 ->
  exists q', enqueue_all q vs = Done (replicate (length vs) true, q') /\
             rep q' (l ++ vs) /\ m_capacity q' = m_capacity q.
Proof.
  revert q l. induction vs as [|v vs IH]; intros q l Hrep Hlen; cbn.
  - exists q. by rewrite app_nil_r.
  - cbn in Hlen.
    assert (isFull q = false) as Hfull.
    { destruct (isFull q) eqn:E; [|done].
      apply wf_isFull_size in E; [|by eapply rep_wf].
      rewrite <- (rep_length q l) in E by done. lia. }
    destruct (enqueue_rep q l v Hrep Hfull) as (q1 & -> & Hrep1 & Hcap1). cbn.
    destruct (IH q1 (l ++ [v]) Hrep1) as (q2 & -> & Hrep2 & Hcap2).
    { rewrite length_app, Hcap1. cbn. lia. }
    cbn. exists q2. rewrite <- app_assoc in Hrep2.
    split; [done|]. split; [done|]. congruence.
Qed.

Lemma dequeue_n_rep n q l item :
  rep q l ->
  exists q', dequeue_n n q item = Done (fifo_dequeue_n n l item, q') /\
             rep q' (drop n l) /\ m_capacity q' = m_capacity q.
Proof.
  revert q l item. induction n as [|n IH]; intros q l item Hrep; cbn.
  - by exists q.
  - destruct l as [|x l].
    + rewrite dequeue_empty by (by apply rep_nil_isEmpty). cbn.
      destruct (IH q [] item Hrep) as (q' & -> & Hrep' & Hcap'). cbn.
      exists q'. by rewrite drop_nil in Hrep'.
    + destruct (dequeue_rep q x l item Hrep) as (q1 & -> & Hrep1 & Hcap1). cbn.
      destruct (IH q1 l x Hrep1) as (q' & -> & Hrep' & Hcap'). cbn.
      exists q'. split; [done|]. split; [done|]. congruence.
Qed.

(** Each call acts on the pending elements as [fifo_step] says. *)
Lemma step_rep q l o :
  rep q l ->
  exists q', step q o = Done q' /\
             rep q' (fifo_step (m_capacity q) l o).2 /\
             m_capacity q' = m_capacity q /\
             match o with
             | Dequeue item =>
                 exists b x, dequeue q item = Done (b, x, q') /\
                             (if b then Some x else None) = head l
             | _ => True
             end.
Proof.
  intros Hrep. pose proof (rep_wf q l Hrep) as Hq.
  pose proof (rep_length q l Hrep) as Hlen.
  assert (isFull q = (Z.of_nat (length l) =? m_capacity q - 1)) as Hfull.
  { rewrite Hlen. destruct (Z.eqb_spec (size q) (m_capacity q - 1)) as [E|E].
    - by apply wf_isFull_size.
    - destruct (isFull q) eqn:F; [|done]. by apply wf_isFull_size in F. }
  destruct o as [item|item|item|]; cbn.
  - rewrite <- Hfull. destruct (isFull q) eqn:F.
    + rewrite enqueue_full by done. cbn. by exists q.
    + destruct (enqueue_rep q l item Hrep F) as (q' & -> & ? & ?). cbn.
      by exists q'.
  - rewrite <- Hfull.
    destruct (forceEnqueue_rep q l item Hrep) as (q' & -> & ? & ?).
    by exists q'.
  - destruct l as [|x l].
    + rewrite dequeue_empty by (by apply rep_nil_isEmpty). cbn.
      exists q. do 3 (split; [done|]). by exists false, item.
    + destruct (dequeue_rep q x l item Hrep) as (q' & -> & ? & ?). cbn.
      exists q'. rewrite drop_0. do 3 (split; [done|]). by exists true, x.
  - exists (clear q). split; [done|]. split; [by apply clear_rep|done].
Qed.

(** A sequence of calls delivers what the same calls deliver on the list
    of pending elements. *)
Lemma run_rep q l os :
  rep q l ->
  exists q', run q os = Done ((fifo_run (m_capacity q) l os).1, q') /\
             rep q' (fifo_run (m_capacity q) l os).2.
Proof.
  revert q l. induction os as [|o os IH]; intros q l Hrep; cbn.
  - by exists q.
  - destruct (step_rep q l o Hrep) as (q1 & Hstep & Hrep1 & Hcap & Hout).
    destruct (IH q1 _ Hrep1) as (q' & Hrun & Hrep'). rewrite Hcap in *.
    exists q'. split; [|done].
    destruct o as [item|item|item|]; cbn in *.
    + rewrite Hstep. cbn. by rewrite Hrun.
    + rewrite Hstep. cbn. by rewrite Hrun.
    + destruct Hout as (b & x & Hd & Hhd). rewrite Hd. cbn.
      rewrite Hd in Hstep. cbn in Hstep. rewrite Hrun. cbn. by rewrite Hhd.
    + injection Hstep as <-. by rewrite Hrun.
Qed.

(** Whatever a call delivers was pending or has been inserted since. *)
Lemma fifo_run_elem cap l os v :
  Some v ∈ (fifo_run cap l os).1 -> v ∈ l \/ v ∈ inserted os.
Proof.
  revert l. induction os as [|o os IH]; intros l; cbn.
  - by intros ?%elem_of_nil.
  - intros [Hhd|Htl]%elem_of_cons.
    + destruct o; cbn in Hhd; try done.
      left. destruct l; [done|]. injection Hhd as ->. by left.
    + apply IH in Htl as [Hin|Hin].
      * destruct o as [item|item|item|]; cbn in Hin |- *.
        -- case_match; [by left|].
           apply elem_of_app in Hin as [?|?%list_elem_of_singleton]; [by left|].
           subst. right. by left.
        -- assert (v ∈ l ++ [item]) as Hin'
             by (case_match; [by eapply subseteq_drop|done]).
           apply elem_of_app in Hin' as [?|?%list_elem_of_singleton];
             [by left|]. subst. right. by left.
        -- left. by eapply subseteq_drop.
        -- by apply elem_of_nil in Hin.
      * right. destruct o; cbn; try done; by right.
Qed.

Lemma fifo_dequeue_n_all l item :
  fifo_dequeue_n (length l) l item = map (pair true) l.
Proof.
  revert item. induction l as [|x l IH]; intros item; cbn; [done|].
  by rewrite IH.
Qed.

(** Every call on a well-formed buffer returns: no access is out of
    bounds. *)
Lemma step_returns q o : wf q -> exists q', step q o = Done q'.
Proof.
  intros Hq. pose proof Hq as (Hc & Hm & Hl & Hw & Hr).
  destruct o as [item|item|item|]; cbn.
  - unfold enqueue. case_match; [by eexists|].
    rewrite store_in_range by lia. by eexists.
  - unfold forceEnqueue. rewrite store_in_range by lia. by eexists.
  - unfold dequeue. case_match; [by eexists|].
    unfold fetch. rewrite bool_decide_eq_true_2 by lia.
    destruct (lookup_lt_is_Some_2 (m_buffer q) (Z.to_nat (m_readIndex q)))
      as [x ->]; [lia|]. by eexists.
  - by eexists.
Qed.

Lemma step_capacity q o q' :
  step q o = Done q' -> m_capacity q' = m_capacity q.
Proof.
  destruct o as [item|item|item|]; cbn.
  - unfold enqueue. case_match; [by intros [= <-]|].
    destruct (store _ _ _); [|done]. by intros [= <-].
  - unfold forceEnqueue. destruct (store _ _ _); [|done]. by intros [= <-].
  - unfold dequeue. case_match; [by intros [= <-]|].
    destruct (fetch _ _); [|done]. by intros [= <-].
  - by intros [= <-].
Qed.

(** A buffer built from a request of 0 stays as constructed: the inserts
    are out of bounds, [dequeue] fails and [clear] changes nothing. *)
Lemma step_degenerate q o q' :
  degenerate q -> step q o = Done q' -> degenerate q'.
Proof.
  intros ->. destruct o as [item|item|item|]; cbn; try done.
  - by intros [= <-].
  - by intros [= <-].
Qed.

Lemma reachable_inv c q :
  reachable dflt c q ->
  (c = 0 /\ degenerate q) \/
  (1 <= c /\ wf q /\ least_pow2_ge c (m_capacity q)).
Proof.
  induction 1 as [fuel q Hc Hq|q o q' _ IH Hstep].
  - by destruct (construct_some dflt fuel c q Hc Hq) as (_ & _ & ?).
  - destruct IH as [[-> Hd]|(Hc & Hq & Hcap)].
    + left. split; [done|]. by eapply step_degenerate.
    + right. split; [done|]. split; [by eapply wf_step|].
      by rewrite (step_capacity q o q').
Qed.

End Sequences.

(** * Binary64 arithmetic of the usage ratio *)

Lemma digits2_pos_iter p n :
  digits2_pos (Pos.iter xO p n) = (digits2_pos p + n)%positive.
Proof.
  induction n as [|n IH] using Pos.peano_ind.
  - cbn. lia.
  - rewrite Pos.iter_succ. cbn. rewrite IH. lia.
Qed.

Lemma Zpos_iter_xO p n : Zpos (Pos.iter xO p n) = Zpos p * 2 ^ Zpos n.
Proof.
  induction n as [|n IH] using Pos.peano_ind.
  - cbn. lia.
  - rewrite Pos.iter_succ, Pos2Z.inj_succ, Z.pow_succ_r by lia.
    rewrite Pos2Z.inj_xO, IH. lia.
Qed.

Lemma digits2_pos_le p k :
  0 <= k -> Zpos p < 2 ^ k -> Zpos (digits2_pos p) <= k.
Proof.
  revert k. induction p as [p IH|p IH|]; intros k Hk Hlt; cbn.
  - destruct (decide (k = 0)) as [->|]; [cbn in Hlt; lia|].
    specialize (IH (k - 1) ltac:(lia)).
    replace k with (Z.succ (k - 1)) in Hlt by lia.
    rewrite Z.pow_succ_r in Hlt by lia. lia.
  - destruct (decide (k = 0)) as [->|]; [cbn in Hlt; lia|].
    specialize (IH (k - 1) ltac:(lia)).
    replace k with (Z.succ (k - 1)) in Hlt by lia.
    rewrite Z.pow_succ_r in Hlt by lia. lia.
  - destruct (decide (k = 0)) as [->|]; [cbn in Hlt; lia|]. lia.
Qed.

(** Rounding a mantissa of exactly 53 bits changes nothing. *)
Lemma binary_round_aux_53 mx ex :
  Zpos (digits2_pos mx) = 53 -> -1074 <= ex <= 971 ->
  binary_round_aux 53 1024 false (Zpos mx) ex loc_Exact
  = S754_finite false mx ex.
Proof.
  intros Hd Hex. unfold binary_round_aux, shr_fexp, fexp, emin. cbn [Zdigits2 shr_record_of_loc].
  rewrite Hd. 
  replace (Z.max (53 + ex - 53) (3 - 1024 - 53) - ex) with 0 by lia.
  cbn [shr shr_m loc_of_shr_record round_nearest_even Zdigits2]. rewrite Hd.
  replace (Z.max (53 + ex - 53) (3 - 1024 - 53) - ex) with 0 by lia.
  cbn [shr shr_m]. 
  destruct (Z.leb_spec ex (1024 - 53)); [done|lia].
Qed.

(** A mantissa of 54 bits whose last bit is 0 loses that bit. *)
Lemma binary_round_aux_54 mx ex :
  Zpos (digits2_pos mx) = 53 -> -1075 <= ex <= 970 ->
  binary_round_aux 53 1024 false (Zpos mx~0) ex loc_Exact
  = S754_finite false mx (ex + 1).
Proof.
  intros Hd Hex. unfold binary_round_aux, shr_fexp, fexp, emin.
  cbn [Zdigits2 shr_record_of_loc digits2_pos]. rewrite Pos2Z.inj_succ, Hd.
  replace (Z.max (Z.succ 53 + ex - 53) (3 - 1024 - 53) - ex) with 1 by lia.
  cbn [shr SpecFloat.iter_pos shr_1 shr_m loc_of_shr_record round_nearest_even Zdigits2 orb].
  rewrite Hd.
  replace (Z.max (53 + (ex + 1) - 53) (3 - 1024 - 53) - (ex + 1)) with 0 by lia.
  cbn [shr shr_m].
  destruct (Z.leb_spec (ex + 1) (1024 - 53)); [done|lia].
Qed.

Lemma mantissa53_digits p :
  Zpos (digits2_pos p) <= 53 -> Zpos (digits2_pos (mantissa53 p)) = 53.
Proof.
  intros Hd. unfold mantissa53.
  destruct (53 - Zpos (digits2_pos p)) as [|n|n] eqn:E; try lia.
  rewrite digits2_pos_iter. lia.
Qed.

Lemma mantissa53_value p :
  Zpos (digits2_pos p) <= 53 ->
  Zpos (mantissa53 p) = Zpos p * 2 ^ (53 - Zpos (digits2_pos p)).
Proof.
  intros Hd. unfold mantissa53.
  destruct (53 - Zpos (digits2_pos p)) as [|n|n] eqn:E; try lia.
  apply Zpos_iter_xO.
Qed.

Lemma double_of_size_t_pos p :
  Zpos (digits2_pos p) <= 53 ->
  double_of_size_t (Zpos p)
  = S754_finite false (mantissa53 p) (Zpos (digits2_pos p) - 53).
Proof.
  intros Hd. unfold double_of_size_t, binary_normalize, binary_round.
  unfold fexp at 1, emin, shl_align, mantissa53.
  replace (Z.max (Zpos (digits2_pos p) + 0 - 53) (3 - 1024 - 53) - 0)
    with (Zpos (digits2_pos p) - 53) by lia.
  pose proof (mantissa53_digits p Hd) as Hm. unfold mantissa53 in Hm.
  destruct (Zpos (digits2_pos p) - 53) as [|n|n] eqn:E; try lia.
  - replace (53 - Zpos (digits2_pos p)) with 0 in * by lia.
    rewrite binary_round_aux_53; (done || lia).
  - replace (53 - Zpos (digits2_pos p)) with (Zpos n) in * by lia.
    replace (Z.max (Zpos (digits2_pos p) + 0 - 53) (3 - 1024 - 53))
      with (Zneg n) by lia.
    rewrite binary_round_aux_53; (done || lia).
Qed.

Lemma double_of_size_t_pow2 k :
  0 <= k < size_bits ->
  double_of_size_t (2 ^ k) = S754_finite false 4503599627370496 (k - 52).
Proof.
  intros Hk. unfold size_bits in Hk.
  assert (exists n : nat, (n < 64)%nat /\ k = Z.of_nat n) as (n & Hn & ->)
    by (exists (Z.to_nat k); lia).
  clear Hk. do 64 (destruct n as [|n]; [vm_compute; reflexivity|]). lia.
Qed.

Lemma div_eucl_shift mx :
  Z.div_eucl (Z.shiftl (Zpos mx) 53) 4503599627370496 = (Zpos mx~0, 0).
Proof.
  rewrite Z.shiftl_mul_pow2 by lia.
  pose proof (Z.div_eucl_eq (Zpos mx * 2 ^ 53) 4503599627370496 ltac:(lia)) as H.
  pose proof (Z.mod_pos_bound (Zpos mx * 2 ^ 53) 4503599627370496 ltac:(lia)) as Hb.
  unfold Z.modulo in Hb.
  destruct (Z.div_eucl (Zpos mx * 2 ^ 53) 4503599627370496) as [a b].
  change (2 ^ 53) with (2 * 4503599627370496) in H.
  f_equal; lia.
Qed.

(** Dividing a 53-bit mantissa by a power of two only moves the exponent. *)
Lemma SFdiv_pow2 mx ex ey :
  Zpos (digits2_pos mx) = 53 ->
  -1021 <= ex - ey <= 1022 ->
  SFdiv 53 1024 (S754_finite false mx ex)
                (S754_finite false 4503599627370496 ey)
  = S754_finite false mx (ex - ey - 52).
Proof.
  intros Hd He. unfold SFdiv, SFdiv_core_binary, fexp, emin.
  cbn [Zdigits2 xorb]. rewrite Hd.
  change (Zpos (digits2_pos 4503599627370496)) with 53.
  replace (Z.min (Z.max (53 + ex - (53 + ey) - 53) (3 - 1024 - 53)) (ex - ey))
    with (ex - ey - 53) by lia.
  replace (ex - ey - (ex - ey - 53)) with 53 by lia.
  rewrite div_eucl_shift.
  change (new_location 4503599627370496 0) with loc_Exact.
  rewrite binary_round_aux_54 by (done || lia).
  f_equal. lia.
Qed.

Section Ratio.
Context {T : Type}.
Implicit Types (q : CircularQueue T).

Lemma usage_ratio_wf q :
  wf q -> size q < 2 ^ 53 ->
  is_quotient (getUsageRatio q) (size q) (capacity q) /\
  SFleb (double_of_size_t 0) (getUsageRatio q) = true /\
  SFltb (getUsageRatio q) (double_of_size_t 1) = true.
Proof.
  intros Hq Hs. pose proof (wf_size_bound q Hq) as Hb.
  unfold getUsageRatio, capacity.
  destruct Hq as ((k & Hk & Hcap) & _). rewrite Hcap in *.
  rewrite (double_of_size_t_pow2 k Hk).
  destruct (size q) as [|p|p] eqn:Hsize; [done| |lia].
  assert (Zpos (digits2_pos p) <= 53) as Hd53 by (apply digits2_pos_le; lia).
  assert (Zpos (digits2_pos p) <= k) as Hdk by (apply digits2_pos_le; lia).
  rewrite double_of_size_t_pos by done.
  unfold size_bits in Hk.
  rewrite SFdiv_pow2; [|by apply mantissa53_digits|lia].
  split; [|split].
  - cbn. rewrite mantissa53_value by done.
    rewrite (Z.max_r _ 0), (Z.max_l _ 0) by lia.
    rewrite Z.pow_0_r, Z.mul_1_r.
    rewrite <- Z.mul_assoc, <- Z.pow_add_r by lia. do 2 f_equal. lia.
  - done.
  - unfold SFltb, SFcompare. change (double_of_size_t 1)
      with (S754_finite false 4503599627370496 (-52)).
    cbn match.
    destruct (Z.compare_spec (Zpos (digits2_pos p) - 53 - (k - 52) - 52) (-52));
      (done || lia).
Qed.
End Ratio.

(** * Filling a buffer *)

Section Filling.

Context {T : Type}.
Variable dflt : T.
Implicit Types (q : CircularQueue T) (vs : list T).

Lemma enqueue_all_reachable c q vs r :
  reachable dflt c q -> enqueue_all q vs = Done r -> reachable dflt c r.2.
Proof.
  revert q r. induction vs as [|v vs IH]; intros q r Hq; cbn.
  - by intros [= <-].
  - destruct (enqueue q v) as [r1|] eqn:E1; [|done]. cbn.
    destruct (enqueue_all r1.2 vs) as [r2|] eqn:E2; [|done]. cbn.
    intros [= <-]. cbn. apply (IH r1.2); [|done].
    apply (reachable_step dflt c q (Enqueue v)); [done|].
    cbn. by rewrite E1.
Qed.

(** Every fill level up to [capacity - 1] is reached from an empty
    buffer. *)
Lemma fill_reachable c q (n : nat) :
  reachable dflt c q -> wf q -> isEmpty q = true ->
  Z.of_nat n <= m_capacity q - 1 ->
  exists q', reachable dflt c q' /\ size q' = Z.of_nat n /\
             m_capacity q' = m_capacity q.
Proof.
  intros Hreach Hq He Hn.
  destruct (enqueue_all_rep q [] (replicate n dflt) (rep_empty q Hq He))
    as (q' & Hen & Hrep & Hcap).
  { rewrite length_replicate. cbn [length]. lia. }
  exists q'. split; [|split; [|done]].
  - by apply (enqueue_all_reachable c q _ _ Hreach Hen).
  - rewrite <- (rep_length q' _ Hrep). cbn [app].
    by rewrite length_replicate.
Qed.

Lemma fill_reachable_Z c q z :
  reachable dflt c q -> wf q -> isEmpty q = true ->
  0 <= z <= m_capacity q - 1 ->
  exists q', reachable dflt c q' /\ size q' = z /\
             m_capacity q' = m_capacity q.
Proof.
  intros Hreach Hq He Hz.
  destruct (fill_reachable c q (Z.to_nat z) Hreach Hq He) as (q' & ? & Hs & ?);
    [lia|].
  exists q'. rewrite Z2Nat.id in Hs by lia. by repeat split.
Qed.

End Filling.

(** * Properties of the operations *)

Section Properties.

Context {T : Type}.
Variable dflt : T.
Implicit Types (q : CircularQueue T) (l vs : list T) (x item : T).

(** C1: starting from an empty buffer, [N <= capacity - 1] calls of
    [enqueue] with [v1..vN] all return true, the [N] calls of [dequeue]
    that follow all return true and deliver [v1..vN] in that order, and
    the buffer is empty afterwards; in particular one [enqueue] followed
    by one [dequeue] returns the inserted value. *)
Theorem enqueue_dequeue_round_trip q vs item :
  wf q -> isEmpty q = true ->
  Z.of_nat (length vs) <= capacity q - 1 ->
  (exists q1 q2,
     enqueue_all q vs = Done (replicate (length vs) true, q1) /\
     dequeue_n (length vs) q1 item = Done (map (pair true) vs, q2) /\
     isEmpty q2 = true) /\
  (forall v, vs = [v] ->
     exists q1 q2,
       enqueue q v = Done (true, q1) /\
       dequeue q1 item = Done (true, v, q2) /\
       isEmpty q2 = true).
Proof.
  intros Hq He Hlen. pose proof (rep_empty q Hq He) as Hrep.
  split.
  - destruct (enqueue_all_rep q [] vs Hrep) as (q1 & Hen & Hrep1 & _);
      [by unfold capacity in Hlen|]. cbn in Hrep1.
    destruct (dequeue_n_rep (length vs) q1 vs item Hrep1)
      as (q2 & Hde & Hrep2 & _).
    rewrite fifo_dequeue_n_all in Hde. rewrite drop_all in Hrep2.
    exists q1, q2. split; [done|]. split; [done|]. by apply rep_nil_isEmpty.
  - intros v ->. cbn in Hlen. unfold capacity in Hlen.
    assert (isFull q = false) as Hfull.
    { destruct (isFull q) eqn:E; [|done].
      apply wf_isFull_size in E; [|done].
      apply wf_isEmpty_size in He; [|done]. lia. }
    destruct (enqueue_rep q [] v Hrep Hfull) as (q1 & Hen & Hrep1 & _).
    destruct (dequeue_rep q1 v [] item Hrep1) as (q2 & Hde & Hrep2 & _).
    exists q1, q2. split; [done|]. split; [done|]. by apply rep_nil_isEmpty.
Qed.

(** C2: on an empty buffer of capacity 8, seven calls of [enqueue] return
    true; the 8th returns false, with [isFull] true and [size] 7; a 9th
    returns false as well; [forceEnqueue] then inserts its item: the
    pending elements are the second to seventh value and the forced item.
    The calls of [dequeue] that follow deliver these in order and then
    fail, and whatever calls follow, a [dequeue] delivers only one of
    these or a value inserted since: the oldest of the seven is gone. *)
Theorem fill_to_capacity_then_force q v1 v2 v3 v4 v5 v6 v7 v8 v9 x item :
  wf q -> capacity q = 8 -> isEmpty q = true ->
  exists q7 q',
    enqueue_all q [v1; v2; v3; v4; v5; v6; v7] = Done (replicate 7 true, q7) /\
    enqueue q7 v8 = Done (false, q7) /\
    isFull q7 = true /\ size q7 = 7 /\
    enqueue q7 v9 = Done (false, q7) /\
    forceEnqueue q7 x = Done q' /\
    rep q' [v2; v3; v4; v5; v6; v7; x] /\
    (forall n, exists q'',
       dequeue_n n q' item
       = Done (fifo_dequeue_n n [v2; v3; v4; v5; v6; v7; x] item, q'')) /\
    (forall os, exists q'',
       run q' os = Done ((fifo_run 8 [v2; v3; v4; v5; v6; v7; x] os).1, q'') /\
       forall v, Some v ∈ (fifo_run 8 [v2; v3; v4; v5; v6; v7; x] os).1 ->
                 v ∈ [v2; v3; v4; v5; v6; v7; x] \/ v ∈ inserted os).
Proof.
  intros Hq Hcap He. unfold capacity in Hcap.
  pose proof (rep_empty q Hq He) as Hrep.
  destruct (enqueue_all_rep q [] [v1; v2; v3; v4; v5; v6; v7] Hrep)
    as (q7 & Hen & Hrep7 & Hcap7); [cbn; lia|]. cbn [app] in Hrep7.
  pose proof (rep_wf _ _ Hrep7) as Hq7.
  pose proof (rep_length _ _ Hrep7) as Hsize. cbn in Hsize.
  assert (isFull q7 = true) as Hfull by (apply wf_isFull_size; [done|lia]).
  destruct (forceEnqueue_rep q7 _ x Hrep7) as (q' & Hforce & Hrep' & Hcap').
  rewrite Hfull in Hrep'. cbn in Hrep'.
  exists q7, q'. repeat (split; [by auto using enqueue_full|]). split.
  - intros n. destruct (dequeue_n_rep n q' _ item Hrep') as (q'' & Hde & _).
    by exists q''.
  - intros os. destruct (run_rep q' _ os Hrep') as (q'' & Hrun & _).
    rewrite Hcap', Hcap7, Hcap in Hrun. exists q''. split; [done|].
    intros v. apply fifo_run_elem.
Qed.

(** C3: on a full buffer, where the write cursor advanced and masked is
    the read cursor, [enqueue] returns false and changes neither cursor
    nor any slot. *)
Theorem enqueue_full_no_mutation q item :
  Z.land (wrap (m_writeIndex q + 1)) (m_mask q) = m_readIndex q ->
  isFull q = true /\
  enqueue q item = Done (false, q).
Proof.
  intros Hfull.
  assert (isFull q = true) as H by (unfold isFull; by apply Z.eqb_eq).
  split; [done|]. by apply enqueue_full.
Qed.

(** C4: on an empty buffer [dequeue] returns false and leaves its output
    parameter and the buffer as they were; on a non-empty buffer it
    returns true, copies the slot at the read cursor into the output and
    advances the read cursor by one, masked. *)
Theorem dequeue_empty_or_oldest c q item :
  (m_readIndex q = m_writeIndex q -> dequeue q item = Done (false, item, q)) /\
  (reachable dflt c q -> m_readIndex q <> m_writeIndex q ->
   exists x,
     m_buffer q !! Z.to_nat (m_readIndex q) = Some x /\
     dequeue q item =
       Done (true, x,
             mkQueue (m_capacity q) (m_mask q) (m_buffer q) (m_writeIndex q)
                     (Z.land (wrap (m_readIndex q + 1)) (m_mask q)))).
Proof.
  split.
  - intros Heq. apply dequeue_empty. unfold isEmpty. by apply Z.eqb_eq.
  - intros Hreach Hne.
    destruct (reachable_inv dflt c q Hreach) as [[_ ->]|(_ & Hq & _)]; [done|].
    destruct Hq as (_ & _ & Hl & _ & Hr).
    destruct (lookup_lt_is_Some_2 (m_buffer q) (Z.to_nat (m_readIndex q)))
      as [x Hx]; [lia|].
    exists x. split; [done|]. unfold dequeue, fetch.
    apply Z.eqb_neq in Hne. rewrite Hne.
    by rewrite bool_decide_eq_true_2, Hx by lia.
Qed.

(** C7: [clear] sets the read cursor to the write cursor and leaves the
    capacity, the mask, the slots and the write cursor as they were;
    afterwards [size] is 0, [isEmpty] is true and [dequeue] returns
    false, whatever the buffer held; [isEmpty] is also true on a buffer
    the constructor has just returned. *)
Theorem clear_discards_all q item fuel c q0 :
  clear q = mkQueue (m_capacity q) (m_mask q) (m_buffer q)
                    (m_writeIndex q) (m_writeIndex q) /\
  size (clear q) = 0 /\
  isEmpty (clear q) = true /\
  dequeue (clear q) item = Done (false, item, clear q) /\
  (construct dflt fuel c = Some q0 -> isEmpty q0 = true).
Proof.
  split; [done|]. split.
  { unfold size, clear; cbn. by rewrite Z.sub_diag. }
  assert (isEmpty (clear q) = true) as He
    by (unfold isEmpty, clear; cbn; apply Z.eqb_refl).
  split; [done|]. split; [by apply dequeue_empty|].
  unfold construct. case_match; [case_match|]; try done; by intros [= <-].
Qed.

(** C9: for a buffer constructed with a requested capacity of at least 1
    and any sequence of [enqueue], [forceEnqueue], [dequeue] and [clear]
    calls, [size() <= capacity - 1], both cursors lie in [0, capacity),
    and [isFull()] is true exactly when [size() = capacity - 1]. *)
Theorem reachable_invariants c q :
  1 <= c -> reachable dflt c q ->
  0 <= size q <= capacity q - 1 /\
  0 <= m_writeIndex q < capacity q /\
  0 <= m_readIndex q < capacity q /\
  (isFull q = true <-> size q = capacity q - 1).
Proof.
  intros Hc Hreach.
  destruct (reachable_inv dflt c q Hreach) as [[-> _]|(_ & Hq & _)]; [lia|].
  unfold capacity. split; [by apply wf_size_bound|].
  split; [apply Hq|]. split; [apply Hq|]. by apply wf_isFull_size.
Qed.

(** C10: a requested capacity of 0 passes the constructor's power-of-two
    test, so the buffer has capacity 0, mask [SIZE_MAX] and no slot; a
    call of [enqueue] then computes [nextWrite = 1], which is not the
    read cursor 0, so the buffer does not count as full and the write to
    slot 0 is outside the empty vector. *)
Theorem zero_capacity_out_of_bounds fuel item :
  Z.land 0 (wrap (0 - 1)) = 0 /\
  construct dflt fuel 0 = Some (mkQueue 0 SIZE_MAX [] 0 0) /\
  (let q := mkQueue 0 SIZE_MAX [] 0 0 in
   capacity q = 0 /\ m_mask q = SIZE_MAX /\ length (m_buffer q) = 0%nat /\
   Z.land (wrap (m_writeIndex q + 1)) (m_mask q) = 1 /\
   m_readIndex q = 0 /\
   isFull q = false /\
   store (m_buffer q) (m_writeIndex q) item = OutOfBounds /\
   enqueue q item = OutOfBounds).
Proof. by repeat split. Qed.

End Properties.

(** * Capacity normalisation and usage ratio *)

Section Normalisation.

Context {T : Type}.
Variable dflt : T.
Implicit Types (q : CircularQueue T).

Lemma not_is_pow2_0 : ~ is_pow2 0.
Proof. intros H%is_pow2_pos. lia. Qed.

Lemma least_pow2_ge_0 : least_pow2_ge 0 1.
Proof.
  split; [by exists 0|]. split; [lia|].
  intros p' H%is_pow2_pos _. lia.
Qed.

(** The loop of a request that is not a power of two returns the
    capacity of the buffer. *)
Lemma construct_loop fuel c q :
  is_size_t c -> ~ is_pow2 c -> construct dflt fuel c = Some q ->
  c = 0 \/ round_up_loop fuel 1 c = Some (capacity q).
Proof.
  intros Hc Hnp. unfold construct.
  destruct (Z.eqb_spec (Z.land c (wrap (c - 1))) 0) as [Htest|Htest]; cbn.
  - intros _. destruct (decide (c = 0)); [by left|].
    destruct Hnp. apply pow2_test_sound; [unfold is_size_t in Hc; lia|done].
  - destruct (round_up_loop fuel 1 c); [|done]. intros [= <-]. by right.
Qed.

Lemma least_pow2_ge_5 : least_pow2_ge 5 8.
Proof. apply (least_pow2_ge_intro 5 3); [lia|lia|right; lia]. Qed.

Lemma least_pow2_ge_8 : least_pow2_ge 8 8.
Proof. apply least_pow2_ge_self. exists 3. lia. Qed.

(** C5: a request of 0 is not a power of two, and the least power of two
    that is at least 0 is 1; yet the constructor's test takes 0 for a
    power of two and keeps capacity 0. For every request of at least 1 on
    which the constructor returns, a power of two is used unchanged, any
    other request gets the least power of two that is at least the
    request, the value the doubling loop started at 1 returns, the vector
    has that many slots and [mask = capacity - 1]; a request of 5 gives
    capacity 8 and a request of 8 gives capacity 8. *)
Theorem construct_rounds_up_except_zero :
  (~ is_pow2 0 /\ least_pow2_ge 0 1 /\
   forall fuel, exists q,
     construct dflt fuel 0 = Some q /\ capacity q = 0 /\
     ~ least_pow2_ge 0 (capacity q)) /\
  (forall c fuel q,
     1 <= c -> is_size_t c -> construct dflt fuel c = Some q ->
     (is_pow2 c -> capacity q = c) /\
     (~ is_pow2 c ->
        least_pow2_ge c (capacity q) /\
        round_up_loop fuel 1 c = Some (capacity q)) /\
     m_mask q = capacity q - 1 /\
     Z.of_nat (length (m_buffer q)) = capacity q /\
     m_writeIndex q = 0 /\ m_readIndex q = 0) /\
  (forall fuel q, construct dflt fuel 5 = Some q -> capacity q = 8) /\
  (forall fuel q, construct dflt fuel 8 = Some q -> capacity q = 8).
Proof.
  assert (forall c fuel q,
            1 <= c -> is_size_t c -> construct dflt fuel c = Some q ->
            wf q /\ least_pow2_ge c (m_capacity q) /\
            m_writeIndex q = 0 /\ m_readIndex q = 0) as Hsome.
  { intros c fuel q Hc Hsz Hq.
    by destruct (construct_some dflt fuel c q Hsz Hq)
      as (Hw & Hr & [[-> _]|(_ & Hwf & Hleast)]); [lia|]. }
  assert (is_size_t 5 /\ is_size_t 8) as [Hs5 Hs8]
    by (unfold is_size_t, SIZE_MAX, size_bits; lia).
  split; [|split; [|split]].
  - split; [apply not_is_pow2_0|]. split; [apply least_pow2_ge_0|].
    intros fuel. eexists. split; [apply construct_zero|]. split; [done|].
    intros (H & _). by apply not_is_pow2_0.
  - intros c fuel q Hc Hsz Hq.
    destruct (Hsome c fuel q Hc Hsz Hq) as (Hwf & Hleast & Hw & Hr).
    unfold capacity. split; [|split].
    + intros Hp. symmetry.
      apply (least_pow2_ge_unique c c (m_capacity q)); [|done].
      by apply least_pow2_ge_self.
    + intros Hnp. split; [done|].
      destruct (construct_loop fuel c q Hsz Hnp Hq) as [->|H]; [lia|done].
    + pose proof Hwf as (_ & ? & ? & _). by do 3 (split; [done|]).
  - intros fuel q Hq.
    destruct (Hsome 5 fuel q ltac:(lia) Hs5 Hq) as (_ & Hleast & _).
    apply (least_pow2_ge_unique 5); [done|apply least_pow2_ge_5].
  - intros fuel q Hq.
    destruct (Hsome 8 fuel q ltac:(lia) Hs8 Hq) as (_ & Hleast & _).
    apply (least_pow2_ge_unique 8); [done|apply least_pow2_ge_8].
Qed.

(** C6: after construction with a request of 0 the capacity is 0, which
    is not a power of two, and masking does not wrap a cursor into
    [0, capacity). *)
Theorem construct_zero_capacity_not_pow2 fuel :
  exists q, construct dflt fuel 0 = Some q /\
            capacity q = 0 /\ ~ is_pow2 (capacity q) /\ ~ 1 <= capacity q /\
            ~ 0 <= Z.land (wrap (m_writeIndex q + 1)) (m_mask q) < capacity q.
Proof.
  eexists. split; [apply construct_zero|]. split; [done|].
  split; [apply not_is_pow2_0|]. cbn. lia.
Qed.

(** C8, for buffers that hold fewer than [2^53] elements: in every state
    of a buffer constructed with a requested capacity of at least 1, the
    usage ratio is exactly [size() / capacity()], at least 0.0 and
    strictly less than 1.0. *)
Theorem usage_ratio_exact c q :
  1 <= c -> reachable dflt c q -> size q < 2 ^ 53 ->
  is_quotient (getUsageRatio q) (size q) (capacity q) /\
  SFleb (double_of_size_t 0) (getUsageRatio q) = true /\
  SFltb (getUsageRatio q) (double_of_size_t 1) = true.
Proof.
  intros Hc Hreach Hs.
  destruct (reachable_inv dflt c q Hreach) as [[-> _]|(_ & Hq & _)]; [lia|].
  by apply usage_ratio_wf.
Qed.

End Normalisation.

(** * The properties on concrete buffers of integers *)

Lemma wf_example_8 : wf (mkQueue 8 7 (replicate 8 0) 0 0).
Proof.
  unfold wf; cbn. repeat split; try lia. exists 3. unfold size_bits. lia.
Defined.

Lemma enqueue_dequeue_round_trip_witness :
  let q := mkQueue 8 7 (replicate 8 0) 0 0 in
  construct 0 64 8 = Some q /\
  wf q /\ isEmpty q = true /\
  Z.of_nat (length [10; 20; 30]) <= capacity q - 1 /\
  exists q1 q2,
    enqueue_all q [10; 20; 30] = Done ([true; true; true], q1) /\
    dequeue_n 3 q1 0 = Done ([(true, 10); (true, 20); (true, 30)], q2) /\
    isEmpty q2 = true.
Proof.
  intros q. split; [reflexivity|]. split; [exact wf_example_8|].
  split; [reflexivity|]. split; [cbn; lia|].
  exact (proj1 (enqueue_dequeue_round_trip q [10; 20; 30] 0 wf_example_8
                  eq_refl ltac:(cbn; lia))).
Defined.

Lemma fill_to_capacity_then_force_witness :
  let q := mkQueue 8 7 (replicate 8 0) 0 0 in
  construct 0 64 5 = Some q /\
  wf q /\ capacity q = 8 /\ isEmpty q = true /\
  exists q7 q',
    enqueue_all q [1; 2; 3; 4; 5; 6; 7] = Done (replicate 7 true, q7) /\
    enqueue q7 8 = Done (false, q7) /\
    isFull q7 = true /\ size q7 = 7 /\
    enqueue q7 9 = Done (false, q7) /\
    forceEnqueue q7 10 = Done q' /\
    rep q' [2; 3; 4; 5; 6; 7; 10] /\
    (forall n, exists q'',
       dequeue_n n q' 0
       = Done (fifo_dequeue_n n [2; 3; 4; 5; 6; 7; 10] 0, q'')) /\
    (forall os, exists q'',
       run q' os = Done ((fifo_run 8 [2; 3; 4; 5; 6; 7; 10] os).1, q'') /\
       forall v, Some v ∈ (fifo_run 8 [2; 3; 4; 5; 6; 7; 10] os).1 ->
                 v ∈ [2; 3; 4; 5; 6; 7; 10] \/ v ∈ inserted os).
Proof.
  intros q. split; [reflexivity|]. split; [exact wf_example_8|].
  split; [reflexivity|]. split; [reflexivity|].
  exact (fill_to_capacity_then_force q 1 2 3 4 5 6 7 8 9 10 0 wf_example_8
           eq_refl eq_refl).
Defined.

Lemma enqueue_full_no_mutation_witness :
  let q := mkQueue 4 3 [1; 2; 3; 0] 3 0 in
  Z.land (wrap (m_writeIndex q + 1)) (m_mask q) = m_readIndex q /\
  isFull q = true /\ enqueue q 4 = Done (false, q).
Proof.
  intros q. split; [reflexivity|].
  exact (enqueue_full_no_mutation q 4 eq_refl).
Defined.

Lemma reachable_example_4 : reachable 0 4 (mkQueue 4 3 [7; 0; 0; 0] 1 0).
Proof.
  apply (reachable_step 0 4 (mkQueue 4 3 (replicate 4 0) 0 0) (Enqueue 7));
    [|reflexivity].
  apply (reachable_construct 0 4 0%nat); [|reflexivity].
  unfold is_size_t, SIZE_MAX, size_bits. lia.
Defined.

Lemma dequeue_empty_or_oldest_witness :
  let q0 := mkQueue 4 3 (replicate 4 0) 0 0 in
  let q1 := mkQueue 4 3 [7; 0; 0; 0] 1 0 in
  (m_readIndex q0 = m_writeIndex q0 /\ dequeue q0 5 = Done (false, 5, q0)) /\
  (reachable 0 4 q1 /\ m_readIndex q1 <> m_writeIndex q1 /\
   exists x,
     m_buffer q1 !! Z.to_nat (m_readIndex q1) = Some x /\
     dequeue q1 5 = Done (true, x, mkQueue 4 3 [7; 0; 0; 0] 1 1)).
Proof.
  intros q0 q1. split.
  - split; [reflexivity|].
    exact (proj1 (dequeue_empty_or_oldest 0 4 q0 5) eq_refl).
  - split; [exact reachable_example_4|].
    assert (m_readIndex q1 <> m_writeIndex q1) as Hne by (cbn; lia).
    split; [exact Hne|].
    exact (proj2 (dequeue_empty_or_oldest 0 4 q1 5) reachable_example_4 Hne).
Defined.

Lemma clear_discards_all_witness :
  let q := mkQueue 4 3 [7; 8; 9; 0] 3 0 in
  let q0 := mkQueue 8 7 (replicate 8 0) 0 0 in
  size q = 3 /\
  construct 0 64 5 = Some q0 /\
  clear q = mkQueue 4 3 [7; 8; 9; 0] 3 3 /\
  size (clear q) = 0 /\
  isEmpty (clear q) = true /\
  dequeue (clear q) 5 = Done (false, 5, clear q) /\
  isEmpty q0 = true.
Proof.
  intros q q0. split; [reflexivity|]. split; [reflexivity|].
  destruct (clear_discards_all 0 q 5 64 5 q0) as (H1 & H2 & H3 & H4 & H5).
  split; [exact H1|]. split; [exact H2|]. split; [exact H3|].
  split; [exact H4|]. exact (H5 eq_refl).
Defined.

Lemma reachable_invariants_witness :
  let q := mkQueue 4 3 [7; 0; 0; 0] 1 0 in
  1 <= 4 /\ reachable 0 4 q /\
  0 <= size q <= capacity q - 1 /\
  0 <= m_writeIndex q < capacity q /\
  0 <= m_readIndex q < capacity q /\
  (isFull q = true <-> size q = capacity q - 1).
Proof.
  intros q. split; [lia|]. split; [exact reachable_example_4|].
  exact (reachable_invariants 0 4 q ltac:(lia) reachable_example_4).
Defined.

(** ** Beyond 53 bits *)

(** C8 beyond 53 bits and at capacity 0. In a buffer of [2^54] slots that
    holds [2^54 - 1] elements, [size()] rounds up to [2^54] in the
    conversion to [double] and the usage ratio is 1.0, not
    [size() / capacity()]. On the buffer a request of 0 builds, the usage
    ratio is 0.0 / 0.0, a NaN. *)
Lemma usage_ratio_not_below_one :
  (exists q : CircularQueue Z,
     reachable 0 (2 ^ 54) q /\
     capacity q = 2 ^ 54 /\ size q = 2 ^ 54 - 1 /\
     getUsageRatio q = double_of_size_t 1 /\
     SFltb (getUsageRatio q) (double_of_size_t 1) = false /\
     ~ is_quotient (getUsageRatio q) (size q) (capacity q)) /\
  (exists q : CircularQueue Z,
     reachable 0 0 q /\
     getUsageRatio q = S754_nan /\
     SFleb (double_of_size_t 0) (getUsageRatio q) = false /\
     SFltb (getUsageRatio q) (double_of_size_t 1) = false).
Proof.
  split.
  - assert (is_size_t (2 ^ 54)) as Hsz
      by (unfold is_size_t, SIZE_MAX, size_bits; lia).
    destruct (construct_returns 0 (2 ^ 54)) as [q0 Hq0];
      [unfold size_bits; lia|].
    destruct (construct_some 0 _ _ q0 Hsz Hq0)
      as (Hw & Hr & [[? _]|(_ & Hwf & Hleast)]); [lia|].
    assert (m_capacity q0 = 2 ^ 54) as Hcap0.
    { symmetry. apply (least_pow2_ge_unique (2 ^ 54)); [|done].
      apply least_pow2_ge_self. exists 54. lia. }
    destruct (fill_reachable_Z 0 (2 ^ 54) q0 (2 ^ 54 - 1))
      as (q & Hreach & Hsize & Hcap).
    { by apply (reachable_construct 0 _ (Z.to_nat size_bits)). }
    { done. }
    { unfold isEmpty. rewrite Hw, Hr. reflexivity. }
    { rewrite Hcap0. lia. }
    rewrite Hcap0 in Hcap.
    assert (getUsageRatio q = double_of_size_t 1) as Hratio.
    { unfold getUsageRatio. rewrite Hsize, Hcap. vm_compute. reflexivity. }
    exists q. unfold capacity.
    split; [done|]. split; [done|]. split; [done|]. split; [done|].
    rewrite Hratio, Hsize, Hcap. split; [reflexivity|].
    vm_compute. discriminate.
  - exists (mkQueue 0 SIZE_MAX [] 0 0). split; [|by vm_compute].
    apply (reachable_construct 0 0 0%nat); [|reflexivity].
    unfold is_size_t, SIZE_MAX, size_bits. lia.
Qed.

Lemma construct_rounds_up_except_zero_witness :
  let q := mkQueue 8 7 (replicate 8 0) 0 0 in
  (exists q0, construct 0 0 0 = Some q0 /\ capacity q0 = 0 /\
              ~ least_pow2_ge 0 (capacity q0)) /\
  1 <= 5 /\ is_size_t 5 /\ construct 0 64 5 = Some q /\
  ((is_pow2 5 -> capacity q = 5) /\
   (~ is_pow2 5 ->
      least_pow2_ge 5 (capacity q) /\
      round_up_loop 64 1 5 = Some (capacity q)) /\
   m_mask q = capacity q - 1 /\
   Z.of_nat (length (m_buffer q)) = capacity q /\
   m_writeIndex q = 0 /\ m_readIndex q = 0) /\
  capacity q = 8.
Proof.
  intros q.
  destruct (construct_rounds_up_except_zero 0) as ((_ & _ & H0) & Hc & H5 & _).
  assert (is_size_t 5) as Hs
    by (unfold is_size_t, SIZE_MAX, size_bits; lia).
  split; [exact (H0 0%nat)|]. split; [lia|]. split; [exact Hs|].
  split; [reflexivity|].
  split; [exact (Hc 5 64%nat q ltac:(lia) Hs eq_refl)|].
  exact (H5 64%nat q eq_refl).
Defined.

Lemma usage_ratio_exact_witness :
  let q := mkQueue 4 3 [7; 0; 0; 0] 1 0 in
  1 <= 4 /\ reachable 0 4 q /\ size q < 2 ^ 53 /\
  getUsageRatio q = S754_finite false 4503599627370496 (-54) /\
  is_quotient (getUsageRatio q) (size q) (capacity q) /\
  SFleb (double_of_size_t 0) (getUsageRatio q) = true /\
  SFltb (getUsageRatio q) (double_of_size_t 1) = true.
Proof.
  intros q. split; [lia|]. split; [exact reachable_example_4|].
  assert (size q < 2 ^ 53) as Hs by (vm_compute; reflexivity).
  split; [exact Hs|]. split; [vm_compute; reflexivity|].
  exact (usage_ratio_exact 0 4 q ltac:(lia) reachable_example_4 Hs).
Defined.

(** * The pending elements as a function of the buffer *)

Section Contents.

Context {T : Type}.
Implicit Types (q : CircularQueue T) (l vs : list T) (x item : T).

Lemma omap_seq_lookup l (k : nat) (f : nat -> option T) :
  (forall (i : nat) x, l !! i = Some x -> f (k + i)%nat = Some x) ->
  omap f (seq k (length l)) = l.
Proof.
  revert k. induction l as [|a l IH]; intros k Hf; cbn; [done|].
  rewrite <- (Nat.add_0_r k) at 1. rewrite (Hf 0%nat a eq_refl).
  f_equal. apply IH. intros i x Hi.
  replace (S k + i)%nat with (k + S i)%nat by lia. by apply Hf.
Qed.

(** The list a buffer represents is the one [contents] reads. *)
Lemma rep_contents q l : rep q l -> contents q = l.
Proof.
  intros Hrep. pose proof (rep_length q l Hrep) as Hlen.
  destruct Hrep as (_ & _ & Hslots).
  unfold contents. rewrite <- Hlen, Nat2Z.id.
  apply omap_seq_lookup. intros i x Hi. cbn. by apply Hslots.
Qed.

Lemma rep_prefix q (m : nat) :
  wf q -> exists l, length l = m /\
    forall (i : nat) x, l !! i = Some x ->
      m_buffer q !! Z.to_nat (slot_of q i) = Some x.
Proof.
  intros Hq. pose proof (wf_capacity_pos q Hq) as Hpos.
  destruct Hq as (_ & _ & Hl & _ & _).
  induction m as [|m (l & Hlen & Hslots)].
  - exists []. split; [done|]. intros i x. by rewrite lookup_nil.
  - destruct (lookup_lt_is_Some_2 (m_buffer q) (Z.to_nat (slot_of q m)))
      as [y Hy].
    { unfold slot_of.
      pose proof (Z.mod_pos_bound (m_readIndex q + Z.of_nat m) (m_capacity q)).
      lia. }
    exists (l ++ [y]). split; [rewrite length_app; cbn; lia|].
    intros i x Hi. destruct (decide (i < length l)%nat) as [Hlt|Hge].
    + rewrite lookup_app_l in Hi by done. by apply Hslots.
    + apply lookup_lt_Some in Hi as Hi'. rewrite length_app in Hi'. cbn in Hi'.
      assert (i = m) as -> by lia.
      rewrite lookup_app_r, Hlen, Nat.sub_diag in Hi by lia.
      by injection Hi as <-.
Qed.

Lemma contents_rep q : wf q -> rep q (contents q).
Proof.
  intros Hq.
  destruct (rep_prefix q (Z.to_nat (size q)) Hq) as (l & Hlen & Hslots).
  assert (rep q l) as Hrep.
  { split; [done|]. split; [|done].
    rewrite Hlen, <- wf_size by done.
    pose proof (wf_size_bound q Hq). lia. }
  by rewrite (rep_contents q l Hrep).
Qed.

Lemma call_step q o r q' : call q o = Done (r, q') -> step q o = Done q'.
Proof.
  destruct o as [item|item|item|]; cbn.
  - destruct (enqueue q item) as [[b q1]|]; [|done]. by intros [= _ <-].
  - destruct (forceEnqueue q item) as [q1|]; [|done]. by intros [= _ <-].
  - destruct (dequeue q item) as [[[b x] q1]|]; [|done]. by intros [= _ <-].
  - by intros [= _ <-].
Qed.

(** One call acts on the pending elements as [fifo_call] says. *)
Lemma call_rep q l o :
  rep q l ->
  exists q', call q o = Done ((fifo_call (m_capacity q) l o).1, q') /\
             rep q' (fifo_call (m_capacity q) l o).2 /\
             m_capacity q' = m_capacity q.
Proof.
  intros Hrep. pose proof (rep_wf q l Hrep) as Hq.
  pose proof (rep_length q l Hrep) as Hlen.
  assert (isFull q = (Z.of_nat (length l) =? m_capacity q - 1)) as Hfull.
  { rewrite Hlen. destruct (Z.eqb_spec (size q) (m_capacity q - 1)) as [E|E].
    - by apply wf_isFull_size.
    - destruct (isFull q) eqn:F; [|done]. by apply wf_isFull_size in F. }
  destruct o as [item|item|item|]; cbn.
  - rewrite <- Hfull. destruct (isFull q) eqn:F.
    + rewrite enqueue_full by done. by exists q.
    + destruct (enqueue_rep q l item Hrep F) as (q' & -> & ? & ?).
      by exists q'.
  - rewrite <- Hfull.
    destruct (forceEnqueue_rep q l item Hrep) as (q' & -> & ? & ?).
    by exists q'.
  - destruct l as [|x l].
    + rewrite dequeue_empty by (by apply rep_nil_isEmpty). by exists q.
    + destruct (dequeue_rep q x l item Hrep) as (q' & -> & ? & ?).
      by exists q'.
  - exists (clear q). split; [done|]. split; [by apply clear_rep|done].
Qed.

Lemma calls_rep q l os :
  rep q l ->
  exists q', calls q os = Done ((fifo_calls (m_capacity q) l os).1, q') /\
             rep q' (fifo_calls (m_capacity q) l os).2 /\
             m_capacity q' = m_capacity q.
Proof.
  revert q l. induction os as [|o os IH]; intros q l Hrep; cbn.
  - by exists q.
  - destruct (call_rep q l o Hrep) as (q1 & -> & Hrep1 & Hcap1).
    destruct (IH q1 _ Hrep1) as (q' & Hcalls & Hrep' & Hcap').
    rewrite Hcap1 in *. rewrite Hcalls. by exists q'.
Qed.

End Contents.

(** * The buffer as a bounded first-in first-out list *)

Section Fifo.

Context {T : Type}.
Variable dflt : T.
Implicit Types (q : CircularQueue T) (l vs : list T) (x item : T).

(** Which of [n] calls of [dequeue] on a list succeed. *)
Lemma fifo_dequeue_n_returns n l item :
  map fst (fifo_dequeue_n n l item)
  = replicate (n `min` length l) true
    ++ replicate (n - n `min` length l) false.
Proof.
  revert l item. induction n as [|n IH]; intros l item; [done|].
  destruct l as [|x l]; cbn [fifo_dequeue_n map fst length].
  - rewrite IH. cbn [length]. by rewrite !Nat.min_0_r, !Nat.sub_0_r.
  - rewrite IH. by rewrite <- Nat.succ_min_distr.
Qed.

(** X1: [size()] is the distance from the read cursor to the write
    cursor, wrapping at the capacity, and it is the number of elements
    [dequeue] can still deliver: of [n] calls of [dequeue] the first
    [min n size()] return true and the others false, and [size()] drops
    by that number. It is the number of pending elements; [isEmpty()] is
    true exactly when [size()] is 0, that is when nothing is pending; a
    buffer is empty and full at once exactly when its capacity is 1. *)
Theorem size_counts_pending q n item :
  wf q ->
  size q = (if m_readIndex q <=? m_writeIndex q
            then m_writeIndex q - m_readIndex q
            else capacity q - (m_readIndex q - m_writeIndex q)) /\
  (let k := (n `min` Z.to_nat (size q))%nat in
   exists rs q',
     dequeue_n n q item = Done (rs, q') /\
     map fst rs = replicate k true ++ replicate (n - k) false /\
     size q' = size q - Z.of_nat k) /\
  size q = Z.of_nat (length (contents q)) /\
  (isEmpty q = true <-> size q = 0) /\
  (isEmpty q = true <-> contents q = []) /\
  (isEmpty q = true /\ isFull q = true <-> capacity q = 1).
Proof.
  intros Hq. pose proof (contents_rep q Hq) as Hrep.
  pose proof (rep_length q _ Hrep) as Hlen.
  pose proof (wf_isEmpty_size q Hq) as He.
  pose proof (wf_isFull_size q Hq) as Hf.
  pose proof (wf_size_bound q Hq) as Hb.
  split; [|split].
  - rewrite wf_size by done. unfold capacity.
    pose proof (wf_capacity_pos q Hq).
    destruct Hq as (_ & _ & _ & Hw & Hr).
    destruct (Z.leb_spec (m_readIndex q) (m_writeIndex q)); mod_steps.
  - destruct (dequeue_n_rep n q _ item Hrep) as (q' & Hd & Hrep' & _).
    exists (fifo_dequeue_n n (contents q) item), q'. split; [done|].
    rewrite <- Hlen, Nat2Z.id. split; [apply fifo_dequeue_n_returns|].
    rewrite <- (rep_length q' _ Hrep'), length_drop. lia.
  - split; [done|]. split; [done|]. split; [|unfold capacity; split].
    + rewrite He, <- Hlen. destruct (contents q); cbn; split; (done || lia).
    + intros [H1%He H2%Hf]. lia.
    + intros H1. split; [apply He|apply Hf]; lia.
Qed.

(** X2: [enqueue] returns true exactly when the buffer is not full; it
    then appends its item behind the pending elements, and otherwise
    leaves them as they were. *)
Theorem enqueue_appends q item :
  wf q ->
  exists q', enqueue q item = Done (negb (isFull q), q') /\ wf q' /\
    capacity q' = capacity q /\
    contents q' = if isFull q then contents q else contents q ++ [item].
Proof.
  intros Hq. pose proof (contents_rep q Hq) as Hrep.
  destruct (isFull q) eqn:F.
  - exists q. by rewrite enqueue_full.
  - destruct (enqueue_rep q _ item Hrep F) as (q' & -> & Hrep' & Hcap).
    exists q'. split; [done|]. split; [by eapply rep_wf|].
    split; [done|]. by apply rep_contents.
Qed.

(** X3: [forceEnqueue] always returns and leaves its item as the newest
    pending element of a buffer of capacity 2 or more: on a buffer that
    is not full it appends the item, on a full one it drops the oldest
    element first, so that [size()] stays [capacity - 1]. *)
Theorem forceEnqueue_drops_oldest q item :
  wf q ->
  exists q', forceEnqueue q item = Done q' /\ wf q' /\
    capacity q' = capacity q /\
    contents q' = (if isFull q then drop 1 (contents q ++ [item])
                   else contents q ++ [item]) /\
    size q' = (if isFull q then size q else size q + 1) /\
    (2 <= capacity q -> last (contents q') = Some item).
Proof.
  intros Hq. pose proof (contents_rep q Hq) as Hrep.
  pose proof (rep_length q _ Hrep) as Hlen.
  destruct (forceEnqueue_rep q _ item Hrep) as (q' & Hf & Hrep' & Hcap).
  pose proof (rep_length q' _ Hrep') as Hlen'.
  pose proof (rep_contents q' _ Hrep') as Hc'.
  exists q'. split; [done|]. split; [by eapply rep_wf|].
  split; [done|]. split; [done|]. split.
  - rewrite <- Hlen', <- Hlen.
    destruct (isFull q); rewrite ?length_drop, length_app; cbn; lia.
  - intros Hcap2. rewrite Hc'. destruct (isFull q) eqn:F.
    + apply wf_isFull_size in F; [|done]. unfold capacity in Hcap2.
      destruct (contents q) as [|y l]; [cbn in Hlen; lia|].
      cbn. rewrite drop_0. apply last_snoc.
    + apply last_snoc.
Qed.

(** X4: [dequeue] fails exactly on a buffer with nothing pending, leaving
    its output parameter as it was; otherwise it delivers the oldest
    pending element and removes it, keeping the others in order. *)
Theorem dequeue_takes_oldest q item :
  wf q ->
  exists q',
    dequeue q item
    = Done (match contents q with
            | [] => (false, item)
            | x :: _ => (true, x)
            end, q') /\
    wf q' /\ capacity q' = capacity q /\
    contents q' = drop 1 (contents q).
Proof.
  intros Hq. pose proof (contents_rep q Hq) as Hrep.
  destruct (contents q) as [|x l] eqn:E.
  - exists q. rewrite dequeue_empty by (by apply rep_nil_isEmpty).
    by rewrite E.
  - destruct (dequeue_rep q x l item Hrep) as (q' & -> & Hrep' & Hcap).
    exists q'. split; [done|]. split; [by eapply rep_wf|].
    split; [done|]. by apply rep_contents.
Qed.

(** X5: any sequence of calls returns what the same calls return on a
    first-in first-out list bounded by [capacity - 1] elements, and
    leaves that list pending. *)
Theorem calls_refine_fifo q os :
  wf q ->
  exists q',
    calls q os = Done ((fifo_calls (capacity q) (contents q) os).1, q') /\
    wf q' /\ capacity q' = capacity q /\
    contents q' = (fifo_calls (capacity q) (contents q) os).2.
Proof.
  intros Hq.
  destruct (calls_rep q _ os (contents_rep q Hq)) as (q' & Hc & Hrep' & Hcap).
  exists q'. split; [done|]. split; [by eapply rep_wf|].
  split; [done|]. by apply rep_contents.
Qed.

Lemma calls_reachable c q os rs q' :
  reachable dflt c q -> calls q os = Done (rs, q') ->
  reachable dflt c q' /\ length rs = length os.
Proof.
  revert q rs. induction os as [|o os IH]; intros q rs Hq; cbn.
  - by intros [= <- <-].
  - destruct (call q o) as [[r q1]|] eqn:E1; [|done].
    destruct (calls q1 os) as [[rs1 q2]|] eqn:E2; [|done].
    intros [= <- <-].
    destruct (IH q1 rs1) as [? ?]; [|done|].
    { apply (reachable_step dflt c q o); [done|]. by eapply call_step. }
    split; [done|]. cbn. lia.
Qed.

(** X6: on a buffer constructed with a requested capacity of at least 1,
    no sequence of calls ever indexes the vector out of bounds: every
    call returns. *)
Theorem calls_never_out_of_bounds c q os :
  1 <= c -> reachable dflt c q ->
  exists rs q',
    calls q os = Done (rs, q') /\ length rs = length os /\
    reachable dflt c q'.
Proof.
  intros Hc Hreach.
  destruct (reachable_inv dflt c q Hreach) as [[-> _]|(_ & Hq & _)]; [lia|].
  destruct (calls_rep q _ os (contents_rep q Hq)) as (q' & Hcalls & _).
  destruct (calls_reachable c q os _ q' Hreach Hcalls) as [? ?].
  by eexists _, q'.
Qed.

End Fifo.

(** * Sequences of calls on the list of pending elements *)

Section FifoLaws.

Context {T : Type}.
Implicit Types (q : CircularQueue T) (l vs : list T) (x item : T).

Lemma fifo_calls_conserve cap l os :
  forallb lossless os = true ->
  l ++ accepted os (fifo_calls cap l os).1
  = taken (fifo_calls cap l os).1 ++ (fifo_calls cap l os).2.
Proof.
  revert l. induction os as [|o os IH]; intros l Hos; cbn.
  - by rewrite app_nil_r.
  - cbn in Hos. apply andb_prop in Hos as [Ho Hos].
    destruct o as [item|item|item|]; try done; cbn.
    + destruct (Z.of_nat (length l) =? cap - 1); cbn.
      * by apply IH.
      * rewrite <- (IH (l ++ [item]) Hos). by rewrite <- app_assoc.
    + destruct l as [|x l]; cbn.
      * by apply (IH []).
      * f_equal. by apply IH.
Qed.

(** X7: [enqueue] and [dequeue] lose and invent nothing: over any
    sequence of these two calls, the elements pending at the start
    followed by the values the successful [enqueue] calls inserted are
    the values the successful [dequeue] calls delivered followed by the
    elements pending at the end, in the same order. *)
Theorem enqueue_dequeue_conserve q os rs q' :
  wf q -> forallb lossless os = true ->
  calls q os = Done (rs, q') ->
  contents q ++ accepted os rs = taken rs ++ contents q'.
Proof.
  intros Hq Hos Hcalls.
  destruct (calls_rep q _ os (contents_rep q Hq)) as (q1 & Hc & Hrep & _).
  rewrite Hc in Hcalls. injection Hcalls as <- <-.
  rewrite (rep_contents _ _ Hrep). by apply fifo_calls_conserve.
Qed.

(** X8: two buffers of the same capacity with the same pending elements
    cannot be told apart by any sequence of calls, wherever their cursors
    stand and whatever their other slots hold: the calls return the same
    and leave the same elements pending. *)
Theorem same_contents_same_results q1 q2 os :
  wf q1 -> wf q2 -> capacity q1 = capacity q2 ->
  contents q1 = contents q2 ->
  exists rs q1' q2',
    calls q1 os = Done (rs, q1') /\ calls q2 os = Done (rs, q2') /\
    contents q1' = contents q2' /\ size q1' = size q2'.
Proof.
  intros Hq1 Hq2 Hcap Hcont. unfold capacity in Hcap.
  destruct (calls_rep q1 _ os (contents_rep q1 Hq1)) as (q1' & Hc1 & Hr1 & _).
  destruct (calls_rep q2 _ os (contents_rep q2 Hq2)) as (q2' & Hc2 & Hr2 & _).
  rewrite <- Hcap, <- Hcont in Hc2, Hr2.
  eexists _, q1', q2'. split; [done|]. split; [done|].
  rewrite <- (rep_length _ _ Hr1), <- (rep_length _ _ Hr2).
  by rewrite (rep_contents _ _ Hr1), (rep_contents _ _ Hr2).
Qed.

Lemma enqueue_all_bulk q l vs :
  rep q l ->
  let k := (length vs `min`
            Z.to_nat (m_capacity q - 1 - Z.of_nat (length l)))%nat in
  exists q',
    enqueue_all q vs
    = Done (replicate k true ++ replicate (length vs - k) false, q') /\
    rep q' (l ++ take k vs) /\ m_capacity q' = m_capacity q.
Proof.
  revert q l. induction vs as [|v vs IH]; intros q l Hrep; cbn.
  - exists q. by rewrite app_nil_r.
  - pose proof (rep_wf q l Hrep) as Hq.
    pose proof (rep_length q l Hrep) as Hlen.
    pose proof (wf_size_bound q Hq) as Hb.
    destruct (isFull q) eqn:F.
    + rewrite enqueue_full by done. cbn.
      apply wf_isFull_size in F; [|done].
      destruct (IH q l Hrep) as (q' & -> & Hrep' & Hcap'). cbn.
      replace (Z.to_nat (m_capacity q - 1 - Z.of_nat (length l))) with 0%nat
        in * by lia.
      rewrite Nat.min_0_r in *. cbn in *. rewrite Nat.sub_0_r in *.
      by exists q'.
    + destruct (enqueue_rep q l v Hrep F) as (q1 & -> & Hrep1 & Hcap1). cbn.
      assert (size q <> m_capacity q - 1) as Hnf
        by (intros E; apply wf_isFull_size in E; [congruence|done]).
      destruct (IH q1 _ Hrep1) as (q' & -> & Hrep' & Hcap'). cbn.
      rewrite Hcap1, length_app in *. cbn [length] in *.
      replace (Z.to_nat (m_capacity q - 1 - Z.of_nat (length l)))
        with (S (Z.to_nat (m_capacity q - 1 - Z.of_nat (length l + 1))))
        by lia.
      cbn. rewrite <- app_assoc in Hrep'. by exists q'.
Qed.

(** X9: [enqueue] called on each value of a list accepts as many as fit,
    the first [capacity - 1 - size()] of them, in order, and rejects all
    the others. *)
Theorem enqueue_all_fills q vs :
  wf q ->
  let k := (length vs `min` Z.to_nat (capacity q - 1 - size q))%nat in
  exists q',
    enqueue_all q vs
    = Done (replicate k true ++ replicate (length vs - k) false, q') /\
    wf q' /\ contents q' = contents q ++ take k vs.
Proof.
  intros Hq. pose proof (contents_rep q Hq) as Hrep.
  rewrite <- (rep_length q _ Hrep). unfold capacity.
  destruct (enqueue_all_bulk q _ vs Hrep) as (q' & He & Hrep' & _).
  exists q'. split; [done|]. split; [by eapply rep_wf|].
  by apply rep_contents.
Qed.

(** X10: [dequeue] called [n] times delivers the [n] oldest pending
    elements, oldest first, and then fails on every further call without
    changing its output parameter; the younger elements stay pending. *)
Theorem dequeue_n_drains q n item :
  wf q ->
  exists q',
    dequeue_n n q item = Done (fifo_dequeue_n n (contents q) item, q') /\
    wf q' /\ contents q' = drop n (contents q).
Proof.
  intros Hq.
  destruct (dequeue_n_rep n q _ item (contents_rep q Hq))
    as (q' & Hd & Hrep' & _).
  exists q'. split; [done|]. split; [by eapply rep_wf|].
  by apply rep_contents.
Qed.

Lemma fifo_calls_pump cap vs item :
  2 <= cap ->
  fifo_calls cap [] (pump vs item)
  = (flat_map (fun v => [RBool true; RItem true v]) vs, []).
Proof.
  intros Hcap. induction vs as [|v vs IH]; [done|].
  change (pump (v :: vs) item)
    with (Enqueue v :: Dequeue item :: pump vs item).
  cbn [fifo_calls fifo_call length]. change (Z.of_nat 0) with 0.
  destruct (Z.eqb_spec 0 (cap - 1)); [lia|].
  cbn [fifo_calls fifo_call app fst snd]. by rewrite IH.
Qed.

(** X11: the cursors wrap around: on an empty buffer of capacity 2 or
    more, [enqueue] followed by [dequeue] succeeds and delivers the value
    just inserted for every value of a list of any length, also one far
    longer than the capacity. *)
Theorem pump_never_fails q vs item :
  wf q -> isEmpty q = true -> 2 <= capacity q ->
  exists q',
    calls q (pump vs item)
    = Done (flat_map (fun v => [RBool true; RItem true v]) vs, q') /\
    isEmpty q' = true.
Proof.
  intros Hq He Hcap.
  destruct (calls_rep q [] (pump vs item) (rep_empty q Hq He))
    as (q' & Hc & Hrep' & _).
  rewrite fifo_calls_pump in Hc, Hrep' by done.
  exists q'. split; [done|]. by apply rep_nil_isEmpty.
Qed.

End FifoLaws.

(** * What a call leaves alone *)

Section Frame.

Context {T : Type}.
Variable dflt : T.
Implicit Types (q : CircularQueue T) (l vs : list T) (x item : T).

Lemma store_spec (v v' : list T) i x :
  store v i x = Done v' ->
  length v' = length v /\
  forall j : nat, j <> Z.to_nat i -> v' !! j = v !! j.
Proof.
  unfold store. case_bool_decide; [|done]. intros [= <-].
  split; [apply length_insert|]. intros j Hj.
  by apply list_lookup_insert_ne.
Qed.

Lemma call_shape q o r q' :
  call q o = Done (r, q') ->
  m_capacity q' = m_capacity q /\ m_mask q' = m_mask q /\
  length (m_buffer q') = length (m_buffer q).
Proof.
  destruct o as [item|item|item|]; cbn.
  - destruct (enqueue q item) as [[b q1]|] eqn:E; [|done]. intros [= _ <-].
    unfold enqueue in E. case_match; [by injection E as _ <-|].
    destruct (store _ _ _) as [v|] eqn:Es; [|done]. injection E as _ <-.
    by destruct (store_spec _ _ _ _ Es).
  - destruct (forceEnqueue q item) as [q1|] eqn:E; [|done]. intros [= _ <-].
    unfold forceEnqueue in E.
    destruct (store _ _ _) as [v|] eqn:Es; [|done]. injection E as <-.
    by destruct (store_spec _ _ _ _ Es).
  - destruct (dequeue q item) as [[[b x] q1]|] eqn:E; [|done].
    intros [= _ <-]. unfold dequeue in E.
    case_match; [by injection E as _ _ <-|].
    destruct (fetch _ _); [|done]. by injection E as _ _ <-.
  - by intros [= _ <-].
Qed.

(** X12: no call changes the capacity, the mask or the number of slots of
    the vector: after any sequence of calls they are as the constructor
    left them. *)
Theorem calls_keep_shape q os rs q' :
  calls q os = Done (rs, q') ->
  capacity q' = capacity q /\ m_mask q' = m_mask q /\
  length (m_buffer q') = length (m_buffer q).
Proof.
  unfold capacity. revert q rs. induction os as [|o os IH]; intros q rs; cbn.
  - by intros [= _ <-].
  - destruct (call q o) as [[r q1]|] eqn:E1; [|done].
    destruct (calls q1 os) as [[rs1 q2]|] eqn:E2; [|done].
    intros [= _ <-].
    destruct (IH q1 rs1 E2) as (-> & -> & ->).
    by apply (call_shape q o r q1).
Qed.

(** X13: the producer and the consumer write different things. [enqueue]
    never moves the read cursor, and changes nothing at all when it
    returns false; [dequeue] and [clear] never move the write cursor and
    never write a slot; and no call writes a slot other than the one at
    the write cursor. *)
Theorem call_writes q o r q' :
  call q o = Done (r, q') ->
  match o with
  | Enqueue _ =>
      m_readIndex q' = m_readIndex q /\ (r = RBool false -> q' = q)
  | ForceEnqueue _ => True
  | Dequeue _ | Clear =>
      m_writeIndex q' = m_writeIndex q /\ m_buffer q' = m_buffer q
  end /\
  forall j : nat, j <> Z.to_nat (m_writeIndex q) ->
    m_buffer q' !! j = m_buffer q !! j.
Proof.
  destruct o as [item|item|item|]; cbn.
  - destruct (enqueue q item) as [[b q1]|] eqn:E; [|done]. intros [= <- <-].
    unfold enqueue in E. case_match; [by injection E as <- <-|].
    destruct (store _ _ _) as [v|] eqn:Es; [|done]. injection E as <- <-.
    cbn. split; [done|]. by destruct (store_spec _ _ _ _ Es).
  - destruct (forceEnqueue q item) as [q1|] eqn:E; [|done]. intros [= _ <-].
    unfold forceEnqueue in E.
    destruct (store _ _ _) as [v|] eqn:Es; [|done]. injection E as <-.
    cbn. split; [done|]. by destruct (store_spec _ _ _ _ Es).
  - destruct (dequeue q item) as [[[b x] q1]|] eqn:E; [|done].
    intros [= _ <-]. unfold dequeue in E.
    case_match; [by injection E as _ _ <-|].
    destruct (fetch _ _); [|done]. by injection E as _ _ <-.
  - by intros [= _ <-].
Qed.

(** X14: on a buffer that is not full [forceEnqueue] does what a
    successful [enqueue] does: it leaves the same buffer, or is out of
    bounds when [enqueue] is. *)
Theorem forceEnqueue_as_enqueue q item :
  isFull q = false ->
  forceEnqueue q item
  = match enqueue q item with
    | Done (_, q') => Done q'
    | OutOfBounds => OutOfBounds
    end /\
  forall q', forceEnqueue q item = Done q' <-> enqueue q item = Done (true, q').
Proof.
  intros Hfull. unfold isFull in Hfull. unfold forceEnqueue, enqueue.
  rewrite Hfull. destruct (store _ _ _) as [v|]; cbn; [|done].
  split; [done|]. intros q'. split; intros [= <-]; done.
Qed.

Lemma fifo_calls_capacity_one (os : list (op T)) :
  taken (fifo_calls 1 [] os).1 = [] /\
  accepted os (fifo_calls 1 [] os).1 = [] /\
  (fifo_calls 1 [] os).2 = [].
Proof.
  induction os as [|o os IH]; [done|].
  destruct o as [item|item|item|]; cbn; apply IH.
Qed.

(** X15: a buffer of capacity 1 never holds an element: [enqueue] always
    returns false, [forceEnqueue] returns but its item is not pending
    afterwards, and over any sequence of calls no [enqueue] and no
    [dequeue] ever returns true. *)
Theorem capacity_one_holds_nothing q os :
  wf q -> capacity q = 1 ->
  contents q = [] /\
  (forall item, enqueue q item = Done (false, q)) /\
  (forall item, exists q',
     forceEnqueue q item = Done q' /\ contents q' = [] /\
     isEmpty q' = true) /\
  exists rs q',
    calls q os = Done (rs, q') /\
    accepted os rs = [] /\ taken rs = [] /\ contents q' = [].
Proof.
  intros Hq Hcap. unfold capacity in Hcap.
  pose proof (contents_rep q Hq) as Hrep.
  pose proof (rep_length q _ Hrep) as Hlen.
  pose proof (wf_size_bound q Hq) as Hb.
  assert (contents q = []) as Hnil
    by (destruct (contents q); [done|cbn in Hlen; lia]).
  rewrite Hnil in Hrep.
  assert (isFull q = true) as Hfull by (apply wf_isFull_size; [done|lia]).
  split; [done|]. split; [by intros item; apply enqueue_full|]. split.
  - intros item.
    destruct (forceEnqueue_rep q [] item Hrep) as (q' & Hf & Hrep' & _).
    rewrite Hfull in Hrep'. cbn in Hrep'.
    exists q'. split; [done|]. split; [by apply rep_contents|].
    by apply rep_nil_isEmpty.
  - destruct (calls_rep q [] os Hrep) as (q' & Hc & Hrep' & _).
    rewrite Hcap in Hc, Hrep'.
    destruct (fifo_calls_capacity_one os) as (Ht & Ha & Hl).
    rewrite Hl in Hrep'.
    eexists _, q'. split; [done|]. split; [done|]. split; [done|].
    by apply rep_contents.
Qed.

(** X16: on the buffer a requested capacity of 0 builds, in every state
    it can reach, [enqueue] and [forceEnqueue] write outside the empty
    vector, whatever the item; [dequeue] returns false and [size()] is
    0. *)
Theorem zero_capacity_never_stores q item :
  reachable dflt 0 q ->
  enqueue q item = OutOfBounds /\
  forceEnqueue q item = OutOfBounds /\
  dequeue q item = Done (false, item, q) /\
  size q = 0 /\ isEmpty q = true /\ isFull q = false /\
  length (m_buffer q) = 0%nat.
Proof.
  intros Hreach.
  destruct (reachable_inv dflt 0 q Hreach) as [[_ ->]|(? & _)]; [|lia].
  by repeat split.
Qed.

End Frame.

(** * The buffer the constructor builds *)

Section Built.

Context {T : Type}.
Variable dflt : T.
Implicit Types (q : CircularQueue T) (l vs : list T) (x item : T).

Lemma least_pow2_ge_lt_double c p :
  1 <= c -> least_pow2_ge c p -> p < 2 * c.
Proof.
  intros Hc ((k & Hk & ->) & Hle & Hmin).
  destruct (decide (k = 0)) as [->|Hk0]; [cbn; lia|].
  assert (2 ^ k = 2 * 2 ^ (k - 1)) as Hpow.
  { rewrite <- Z.pow_succ_r by lia. f_equal. lia. }
  pose proof (pow2_pos (k - 1) ltac:(lia)).
  destruct (Z.le_gt_cases c (2 ^ (k - 1))) as [Hle'|Hgt]; [|lia].
  specialize (Hmin (2 ^ (k - 1))). 
  assert (2 ^ k <= 2 ^ (k - 1)); [|lia].
  apply Hmin; [|done]. exists (k - 1). split; [lia|done].
Qed.

Lemma construct_buffer fuel c q :
  construct dflt fuel c = Some q ->
  m_buffer q = replicate (Z.to_nat (m_capacity q)) dflt.
Proof.
  unfold construct. case_match; [|by intros [= <-]].
  destruct (round_up_loop fuel 1 c); [|done]. intros [= <-]. cbn.
  apply resize_replicate.
Qed.

Lemma construct_spec fuel c q :
  1 <= c <= 2 ^ (size_bits - 1) -> construct dflt fuel c = Some q ->
  wf q /\ least_pow2_ge c (m_capacity q) /\ isEmpty q = true.
Proof.
  intros Hc Hq.
  assert (is_size_t c) as Hsz.
  { unfold is_size_t, SIZE_MAX. pose proof (pow2_le_word (size_bits - 1)).
    unfold size_bits in *. lia. }
  destruct (construct_some dflt fuel c q Hsz Hq)
    as (Hw & Hr & [[-> _]|(_ & Hwf & Hleast)]); [lia|].
  split; [done|]. split; [done|]. unfold isEmpty. by rewrite Hw, Hr.
Qed.

(** X17: for a request [c] from 1 to [2^63] the buffer the constructor
    returns has at least [c] and fewer than [2 * c] slots, each holding
    [T()], and nothing pending. *)
Theorem construct_capacity_bounds fuel c q :
  1 <= c <= 2 ^ (size_bits - 1) -> construct dflt fuel c = Some q ->
  c <= capacity q < 2 * c /\
  m_buffer q = replicate (Z.to_nat (capacity q)) dflt /\
  contents q = [] /\ size q = 0.
Proof.
  intros Hc Hq. destruct (construct_spec fuel c q Hc Hq) as (Hwf & Hl & He).
  unfold capacity. split.
  - split; [apply Hl|]. apply least_pow2_ge_lt_double; [lia|done].
  - split; [by eapply construct_buffer|].
    split; [by apply rep_contents, rep_empty|]. by apply wf_isEmpty_size.
Qed.

(** X18: one slot is never used: a buffer built for a requested capacity
    [c] that is a power of two accepts [c - 1] elements and rejects the
    [c]-th. *)
Theorem construct_pow2_holds_one_less fuel c q vs :
  1 <= c <= 2 ^ (size_bits - 1) -> is_pow2 c ->
  construct dflt fuel c = Some q ->
  Z.of_nat (length vs) = c ->
  exists q',
    enqueue_all q vs
    = Done (replicate (length vs - 1) true ++ [false], q') /\
    contents q' = take (length vs - 1) vs /\
    isFull q' = true.
Proof.
  intros Hc Hp Hq Hlen.
  destruct (construct_spec fuel c q Hc Hq) as (Hwf & Hl & He).
  assert (m_capacity q = c) as Hcap.
  { symmetry. apply (least_pow2_ge_unique c c (m_capacity q)); [|done].
    by apply least_pow2_ge_self. }
  destruct (enqueue_all_bulk q [] vs (rep_empty q Hwf He))
    as (q' & Hen & Hrep & Hcap').
  cbn [length app] in Hen, Hrep. rewrite Hcap in Hen, Hrep, Hcap'.
  replace (length vs `min` Z.to_nat (c - 1 - Z.of_nat 0))%nat
    with (length vs - 1)%nat in * by lia.
  replace (length vs - (length vs - 1))%nat with 1%nat in Hen by lia.
  exists q'. split; [done|]. split; [by apply rep_contents|].
  apply wf_isFull_size; [by eapply rep_wf|].
  rewrite <- (rep_length q' _ Hrep), length_take.
  rewrite Hcap'. lia.
Qed.

Lemma least_pow2_ge_mono c1 c2 p1 p2 :
  c1 <= c2 -> least_pow2_ge c1 p1 -> least_pow2_ge c2 p2 -> p1 <= p2.
Proof.
  intros Hc (_ & _ & Hmin) (Hp2 & Hle2 & _). apply Hmin; [done|lia].
Qed.

(** X19: the capacity grows with the request, and a capacity is its own
    normal form: requesting the capacity of a buffer the constructor
    built gives a buffer of that same capacity. *)
Theorem construct_capacity_monotone fuel1 fuel2 fuel3 c1 c2 q1 q2 q3 :
  1 <= c1 -> c1 <= c2 -> c2 <= 2 ^ (size_bits - 1) ->
  construct dflt fuel1 c1 = Some q1 ->
  construct dflt fuel2 c2 = Some q2 ->
  construct dflt fuel3 (capacity q1) = Some q3 ->
  capacity q1 <= capacity q2 /\ capacity q3 = capacity q1.
Proof.
  intros H1 H12 H2 Hq1 Hq2 Hq3. unfold capacity in *.
  destruct (construct_spec fuel1 c1 q1 ltac:(lia) Hq1) as (Hwf1 & Hl1 & _).
  destruct (construct_spec fuel2 c2 q2 ltac:(lia) Hq2) as (_ & Hl2 & _).
  split; [by apply (least_pow2_ge_mono c1 c2)|].
  pose proof Hwf1 as ((k & Hk & Hcap) & _).
  assert (1 <= m_capacity q1 <= 2 ^ (size_bits - 1)) as Hc3.
  { rewrite Hcap. pose proof (pow2_pos k ltac:(lia)).
    split; [lia|]. apply Z.pow_le_mono_r; lia. }
  destruct (construct_spec fuel3 _ q3 Hc3 Hq3) as (_ & Hl3 & _).
  apply (least_pow2_ge_unique (m_capacity q1)); [done|].
  apply least_pow2_ge_self. destruct Hl1 as (? & _). done.
Qed.

End Built.

(** * The usage ratio as a measure of the fill level *)

Section RatioOrder.

Context {T : Type}.
Implicit Types (q : CircularQueue T).

Lemma digits2_pos_lt p : Zpos p < 2 ^ Zpos (digits2_pos p).
Proof.
  induction p as [p IH|p IH|]; cbn [digits2_pos]; [| |done];
    rewrite Pos2Z.inj_succ, Z.pow_succ_r by lia; lia.
Qed.

(** The ratio of a buffer that holds [p] elements, [p] below [2^53]. *)
Lemma usage_ratio_pos q k p :
  0 <= k < size_bits -> m_capacity q = 2 ^ k ->
  size q = Zpos p -> Zpos p < 2 ^ 53 -> Zpos p < 2 ^ k ->
  getUsageRatio q
  = S754_finite false (mantissa53 p) (Zpos (digits2_pos p) - 53 - k).
Proof.
  intros Hk Hcap Hsize H53 Hlt. unfold getUsageRatio.
  rewrite Hcap, Hsize, (double_of_size_t_pow2 k Hk).
  assert (Zpos (digits2_pos p) <= 53) as Hd53 by (apply digits2_pos_le; lia).
  rewrite double_of_size_t_pos by done. unfold size_bits in Hk.
  rewrite SFdiv_pow2; [|by apply mantissa53_digits|lia].
  f_equal. lia.
Qed.

Lemma usage_ratio_zero q k :
  0 <= k < size_bits -> m_capacity q = 2 ^ k -> size q = 0 ->
  getUsageRatio q = S754_zero false.
Proof.
  intros Hk Hcap Hsize. unfold getUsageRatio.
  by rewrite Hcap, Hsize, (double_of_size_t_pow2 k Hk).
Qed.

(** X20: while fewer than [2^53] elements are pending, the usage ratio is
    0.0 exactly when the buffer is empty. *)
Theorem usage_ratio_zero_iff_empty q :
  wf q -> size q < 2 ^ 53 ->
  getUsageRatio q = S754_zero false <-> isEmpty q = true.
Proof.
  intros Hq Hs. pose proof (wf_size_bound q Hq) as Hb.
  rewrite (wf_isEmpty_size q Hq).
  destruct Hq as ((k & Hk & Hcap) & _). rewrite Hcap in Hb.
  destruct (size q) as [|p|p] eqn:Hsize; [|split|lia].
  - split; [done|]. intros _. by apply (usage_ratio_zero q k).
  - by rewrite (usage_ratio_pos q k p) by (done || lia).
  - done.
Qed.

(** X21: the usage ratio grows strictly with the fill level: of two
    buffers of the same capacity, each with fewer than [2^53] elements
    pending, the one with more elements has the larger ratio. *)
Theorem usage_ratio_increasing q1 q2 :
  wf q1 -> wf q2 -> capacity q1 = capacity q2 ->
  size q1 < size q2 -> size q2 < 2 ^ 53 ->
  SFltb (getUsageRatio q1) (getUsageRatio q2) = true.
Proof.
  intros Hq1 Hq2 Hcap Hlt H53. unfold capacity in Hcap.
  pose proof (wf_size_bound q1 Hq1) as Hb1.
  pose proof (wf_size_bound q2 Hq2) as Hb2.
  destruct Hq1 as ((k & Hk & Hcap1) & _). rewrite <- Hcap, Hcap1 in Hb2.
  rewrite Hcap1 in Hb1. rewrite Hcap1 in Hcap. symmetry in Hcap.
  destruct (size q2) as [|p2|p2] eqn:Hs2; [lia| |lia].
  rewrite (usage_ratio_pos q2 k p2) by (done || lia).
  destruct (size q1) as [|p1|p1] eqn:Hs1; [| |lia].
  - by rewrite (usage_ratio_zero q1 k).
  - rewrite (usage_ratio_pos q1 k p1) by (done || lia).
    pose proof (digits2_pos_lt p2) as Hd2.
    assert (Zpos (digits2_pos p1) <= Zpos (digits2_pos p2)) as Hd
      by (apply digits2_pos_le; lia).
    assert (Zpos (digits2_pos p2) <= 53) as Hd53
      by (apply digits2_pos_le; lia).
    unfold SFltb, SFcompare.
    destruct (Z.compare_spec (Zpos (digits2_pos p1) - 53 - k)
                             (Zpos (digits2_pos p2) - 53 - k)) as [He| |];
      [|done|lia].
    change (PosDef.Pos.compare_cont Eq (mantissa53 p1) (mantissa53 p2))
      with (mantissa53 p1 ?= mantissa53 p2)%positive.
    assert (mantissa53 p1 < mantissa53 p2)%positive as Hm; [|by rewrite Hm].
    enough (Zpos (mantissa53 p1) < Zpos (mantissa53 p2)) by lia.
    rewrite !mantissa53_value by lia.
    replace (Zpos (digits2_pos p1)) with (Zpos (digits2_pos p2)) by lia.
    apply Z.mul_lt_mono_pos_r; [apply pow2_pos; lia|lia].
Qed.

End RatioOrder.

(** * The further properties on concrete buffers of integers *)

Lemma wf_example_4 : wf (mkQueue 4 3 [7; 0; 0; 0] 1 0).
Proof.
  unfold wf; cbn. repeat split; try lia. exists 2. unfold size_bits. lia.
Defined.

Lemma wf_example_full : wf (mkQueue 4 3 [1; 2; 3; 0] 3 0).
Proof.
  unfold wf; cbn. repeat split; try lia. exists 2. unfold size_bits. lia.
Defined.

Lemma wf_example_1 : wf (mkQueue 1 0 [0] 0 0).
Proof.
  unfold wf; cbn. repeat split; try lia. exists 0. unfold size_bits. lia.
Defined.

Lemma size_counts_pending_witness :
  let q := mkQueue 4 3 [1; 2; 3; 4] 1 2 in
  wf q /\ size q = 3 /\
  size q = (if m_readIndex q <=? m_writeIndex q
            then m_writeIndex q - m_readIndex q
            else capacity q - (m_readIndex q - m_writeIndex q)) /\
  (exists rs q',
     dequeue_n 5 q 0 = Done (rs, q') /\
     map fst rs = replicate (5 `min` Z.to_nat (size q)) true
                  ++ replicate (5 - 5 `min` Z.to_nat (size q)) false /\
     size q' = size q - Z.of_nat (5 `min` Z.to_nat (size q))) /\
  size q = Z.of_nat (length (contents q)) /\
  (isEmpty q = true <-> size q = 0) /\
  (isEmpty q = true <-> contents q = []) /\
  (isEmpty q = true /\ isFull q = true <-> capacity q = 1).
Proof.
  intros q.
  assert (wf q) as Hq.
  { unfold wf; cbn. repeat split; try lia. exists 2. unfold size_bits. lia. }
  split; [exact Hq|]. split; [reflexivity|].
  exact (size_counts_pending q 5 0 Hq).
Defined.

Lemma enqueue_appends_witness :
  let q := mkQueue 4 3 [7; 0; 0; 0] 1 0 in
  wf q /\ contents q = [7] /\
  exists q', enqueue q 9 = Done (negb (isFull q), q') /\ wf q' /\
    capacity q' = capacity q /\
    contents q' = if isFull q then contents q else contents q ++ [9].
Proof.
  intros q. split; [exact wf_example_4|]. split; [reflexivity|].
  exact (enqueue_appends q 9 wf_example_4).
Defined.

Lemma forceEnqueue_drops_oldest_witness :
  let q := mkQueue 4 3 [1; 2; 3; 0] 3 0 in
  wf q /\ contents q = [1; 2; 3] /\ isFull q = true /\
  exists q', forceEnqueue q 4 = Done q' /\ wf q' /\
    capacity q' = capacity q /\
    contents q' = (if isFull q then drop 1 (contents q ++ [4])
                   else contents q ++ [4]) /\
    size q' = (if isFull q then size q else size q + 1) /\
    (2 <= capacity q -> last (contents q') = Some 4).
Proof.
  intros q. split; [exact wf_example_full|]. split; [reflexivity|].
  split; [reflexivity|].
  exact (forceEnqueue_drops_oldest q 4 wf_example_full).
Defined.

Lemma dequeue_takes_oldest_witness :
  let q := mkQueue 4 3 [1; 2; 3; 0] 3 0 in
  wf q /\
  exists q',
    dequeue q 0
    = Done (match contents q with
            | [] => (false, 0)
            | x :: _ => (true, x)
            end, q') /\
    wf q' /\ capacity q' = capacity q /\
    contents q' = drop 1 (contents q).
Proof.
  intros q. split; [exact wf_example_full|].
  exact (dequeue_takes_oldest q 0 wf_example_full).
Defined.

Lemma calls_refine_fifo_witness :
  let q := mkQueue 4 3 [1; 2; 3; 0] 3 0 in
  let os := [Enqueue 4; Dequeue 0; ForceEnqueue 5; ForceEnqueue 6; Clear] in
  wf q /\
  (fifo_calls (capacity q) (contents q) os).1
  = [RBool false; RItem true 1; RVoid; RVoid; RVoid] /\
  exists q',
    calls q os = Done ((fifo_calls (capacity q) (contents q) os).1, q') /\
    wf q' /\ capacity q' = capacity q /\
    contents q' = (fifo_calls (capacity q) (contents q) os).2.
Proof.
  intros q os. split; [exact wf_example_full|]. split; [reflexivity|].
  exact (calls_refine_fifo q os wf_example_full).
Defined.

Lemma calls_never_out_of_bounds_witness :
  let q := mkQueue 4 3 [7; 0; 0; 0] 1 0 in
  let os := [Enqueue 1; Enqueue 2; Enqueue 3; ForceEnqueue 4; Dequeue 0] in
  1 <= 4 /\ reachable 0 4 q /\
  exists rs q',
    calls q os = Done (rs, q') /\ length rs = length os /\
    reachable 0 4 q'.
Proof.
  intros q os. split; [lia|]. split; [exact reachable_example_4|].
  exact (calls_never_out_of_bounds 0 4 q os ltac:(lia) reachable_example_4).
Defined.

Lemma enqueue_dequeue_conserve_witness :
  let q := mkQueue 4 3 [7; 0; 0; 0] 1 0 in
  let os := [Enqueue 8; Dequeue 0; Enqueue 9] in
  let rs := [RBool true; RItem true 7; RBool true] in
  let q' := mkQueue 4 3 [7; 8; 9; 0] 3 1 in
  wf q /\ forallb lossless os = true /\ calls q os = Done (rs, q') /\
  contents q ++ accepted os rs = taken rs ++ contents q'.
Proof.
  intros q os rs q'. split; [exact wf_example_4|]. split; [reflexivity|].
  split; [reflexivity|].
  exact (enqueue_dequeue_conserve q os rs q' wf_example_4 eq_refl eq_refl).
Defined.

Lemma wf_example_stale : wf (mkQueue 4 3 [5; 6; 7; 5] 3 2).
Proof.
  unfold wf; cbn. repeat split; try lia. exists 2. unfold size_bits. lia.
Defined.

Lemma same_contents_same_results_witness :
  let q1 := mkQueue 4 3 [7; 0; 0; 0] 1 0 in
  let q2 := mkQueue 4 3 [5; 6; 7; 5] 3 2 in
  let os := [Enqueue 1; Enqueue 2; Enqueue 3; Dequeue 0; Dequeue 0] in
  wf q1 /\ wf q2 /\ capacity q1 = capacity q2 /\ contents q1 = contents q2 /\
  exists rs q1' q2',
    calls q1 os = Done (rs, q1') /\ calls q2 os = Done (rs, q2') /\
    contents q1' = contents q2' /\ size q1' = size q2'.
Proof.
  intros q1 q2 os. split; [exact wf_example_4|].
  split; [exact wf_example_stale|]. split; [reflexivity|].
  split; [reflexivity|].
  exact (same_contents_same_results q1 q2 os wf_example_4 wf_example_stale
           eq_refl eq_refl).
Defined.

Lemma enqueue_all_fills_witness :
  let q := mkQueue 4 3 [7; 0; 0; 0] 1 0 in
  let vs := [1; 2; 3; 4] in
  wf q /\
  (length vs `min` Z.to_nat (capacity q - 1 - size q))%nat = 2%nat /\
  exists q',
    enqueue_all q vs
    = Done (replicate
              (length vs `min` Z.to_nat (capacity q - 1 - size q)) true
            ++ replicate
                 (length vs
                  - length vs `min` Z.to_nat (capacity q - 1 - size q))
                 false, q') /\
    wf q' /\
    contents q'
    = contents q
      ++ take (length vs `min` Z.to_nat (capacity q - 1 - size q)) vs.
Proof.
  intros q vs. split; [exact wf_example_4|]. split; [reflexivity|].
  exact (enqueue_all_fills q vs wf_example_4).
Defined.

Lemma dequeue_n_drains_witness :
  let q := mkQueue 4 3 [1; 2; 3; 0] 3 0 in
  wf q /\
  fifo_dequeue_n 5 (contents q) 0
  = [(true, 1); (true, 2); (true, 3); (false, 3); (false, 3)] /\
  exists q',
    dequeue_n 5 q 0 = Done (fifo_dequeue_n 5 (contents q) 0, q') /\
    wf q' /\ contents q' = drop 5 (contents q).
Proof.
  intros q. split; [exact wf_example_full|]. split; [reflexivity|].
  exact (dequeue_n_drains q 5 0 wf_example_full).
Defined.

Lemma pump_never_fails_witness :
  let q := mkQueue 4 3 [7; 0; 0; 0] 1 1 in
  let vs := [1; 2; 3; 4; 5; 6; 7; 8; 9] in
  wf q /\ isEmpty q = true /\ 2 <= capacity q /\
  exists q',
    calls q (pump vs 0)
    = Done (flat_map (fun v => [RBool true; RItem true v]) vs, q') /\
    isEmpty q' = true.
Proof.
  intros q vs.
  assert (wf q) as Hq.
  { unfold wf; cbn. repeat split; try lia. exists 2. unfold size_bits. lia. }
  split; [exact Hq|]. split; [reflexivity|].
  assert (2 <= capacity q) as Hcap by (cbn; lia).
  split; [exact Hcap|].
  exact (pump_never_fails q vs 0 Hq eq_refl Hcap).
Defined.

Lemma calls_keep_shape_witness :
  let q := mkQueue 4 3 [7; 0; 0; 0] 1 0 in
  let os := [Enqueue 8; ForceEnqueue 9; ForceEnqueue 10; Dequeue 0; Clear] in
  let rs := [RBool true; RVoid; RVoid; RItem true 8; RVoid] in
  let q' := mkQueue 4 3 [7; 8; 9; 10] 0 0 in
  calls q os = Done (rs, q') /\
  capacity q' = capacity q /\ m_mask q' = m_mask q /\
  length (m_buffer q') = length (m_buffer q).
Proof.
  intros q os rs q'. split; [reflexivity|].
  exact (calls_keep_shape q os rs q' eq_refl).
Defined.

Lemma call_writes_witness :
  let q := mkQueue 4 3 [7; 0; 0; 0] 1 0 in
  let q' := mkQueue 4 3 [7; 8; 0; 0] 2 0 in
  call q (Enqueue 8) = Done (RBool true, q') /\
  (m_readIndex q' = m_readIndex q /\
   ((RBool true : result Z) = RBool false -> q' = q)) /\
  forall j : nat, j <> Z.to_nat (m_writeIndex q) ->
    m_buffer q' !! j = m_buffer q !! j.
Proof.
  intros q q'. split; [reflexivity|].
  exact (call_writes q (Enqueue 8) (RBool true) q' eq_refl).
Defined.

Lemma forceEnqueue_as_enqueue_witness :
  let q := mkQueue 4 3 [7; 0; 0; 0] 1 0 in
  isFull q = false /\
  forceEnqueue q 8
  = match enqueue q 8 with
    | Done (_, q') => Done q'
    | OutOfBounds => OutOfBounds
    end /\
  forall q', forceEnqueue q 8 = Done q' <-> enqueue q 8 = Done (true, q').
Proof.
  intros q. split; [reflexivity|].
  exact (forceEnqueue_as_enqueue q 8 eq_refl).
Defined.

Lemma capacity_one_holds_nothing_witness :
  let q := mkQueue 1 0 [0] 0 0 in
  let os := [Enqueue 1; ForceEnqueue 2; Dequeue 0; Enqueue 3] in
  construct 0 64 1 = Some q /\ wf q /\ capacity q = 1 /\
  contents q = [] /\
  (forall item, enqueue q item = Done (false, q)) /\
  (forall item, exists q',
     forceEnqueue q item = Done q' /\ contents q' = [] /\
     isEmpty q' = true) /\
  exists rs q',
    calls q os = Done (rs, q') /\
    accepted os rs = [] /\ taken rs = [] /\ contents q' = [].
Proof.
  intros q os. split; [reflexivity|]. split; [exact wf_example_1|].
  split; [reflexivity|].
  exact (capacity_one_holds_nothing q os wf_example_1 eq_refl).
Defined.

Lemma zero_capacity_never_stores_witness :
  let q := mkQueue 0 SIZE_MAX [] 0 0 in
  reachable 0 0 q /\
  enqueue q 7 = OutOfBounds /\
  forceEnqueue q 7 = OutOfBounds /\
  dequeue q 7 = Done (false, 7, q) /\
  size q = 0 /\ isEmpty q = true /\ isFull q = false /\
  length (m_buffer q) = 0%nat.
Proof.
  intros q.
  assert (reachable 0 0 q) as Hreach.
  { apply (reachable_step 0 0 q Clear); [|reflexivity].
    apply (reachable_construct 0 0 0%nat); [|reflexivity].
    unfold is_size_t, SIZE_MAX, size_bits. lia. }
  split; [exact Hreach|].
  exact (zero_capacity_never_stores 0 q 7 Hreach).
Defined.

Lemma construct_capacity_bounds_witness :
  let q := mkQueue 8 7 (replicate 8 0) 0 0 in
  1 <= 5 <= 2 ^ (size_bits - 1) /\ construct 0 64 5 = Some q /\
  5 <= capacity q < 2 * 5 /\
  m_buffer q = replicate (Z.to_nat (capacity q)) 0 /\
  contents q = [] /\ size q = 0.
Proof.
  intros q.
  assert (1 <= 5 <= 2 ^ (size_bits - 1)) as H by (unfold size_bits; lia).
  split; [exact H|]. split; [reflexivity|].
  exact (construct_capacity_bounds 0 64 5 q H eq_refl).
Defined.

Lemma construct_pow2_holds_one_less_witness :
  let q := mkQueue 4 3 (replicate 4 0) 0 0 in
  let vs := [1; 2; 3; 4] in
  1 <= 4 <= 2 ^ (size_bits - 1) /\ is_pow2 4 /\
  construct 0 64 4 = Some q /\ Z.of_nat (length vs) = 4 /\
  exists q',
    enqueue_all q vs
    = Done (replicate (length vs - 1) true ++ [false], q') /\
    contents q' = take (length vs - 1) vs /\
    isFull q' = true.
Proof.
  intros q vs.
  assert (1 <= 4 <= 2 ^ (size_bits - 1)) as H by (unfold size_bits; lia).
  assert (is_pow2 4) as Hp by (exists 2; lia).
  split; [exact H|]. split; [exact Hp|]. split; [reflexivity|].
  split; [reflexivity|].
  exact (construct_pow2_holds_one_less 0 64 4 q vs H Hp eq_refl eq_refl).
Defined.

Lemma construct_capacity_monotone_witness :
  let q1 := mkQueue 4 3 (replicate 4 0) 0 0 in
  let q2 := mkQueue 8 7 (replicate 8 0) 0 0 in
  1 <= 3 /\ 3 <= 5 /\ 5 <= 2 ^ (size_bits - 1) /\
  construct 0 64 3 = Some q1 /\ construct 0 64 5 = Some q2 /\
  construct 0 64 (capacity q1) = Some q1 /\
  capacity q1 <= capacity q2 /\ capacity q1 = capacity q1.
Proof.
  intros q1 q2.
  assert (5 <= 2 ^ (size_bits - 1)) as H by (unfold size_bits; lia).
  split; [lia|]. split; [lia|]. split; [exact H|].
  split; [reflexivity|]. split; [reflexivity|]. split; [reflexivity|].
  exact (construct_capacity_monotone 0 64 64 64 3 5 q1 q2 q1
           ltac:(lia) ltac:(lia) H eq_refl eq_refl eq_refl).
Defined.

Lemma usage_ratio_zero_iff_empty_witness :
  let q := mkQueue 8 7 (replicate 8 0) 0 0 in
  wf q /\ size q < 2 ^ 53 /\
  (getUsageRatio q = S754_zero false <-> isEmpty q = true).
Proof.
  intros q. split; [exact wf_example_8|].
  assert (size q < 2 ^ 53) as Hs by (vm_compute; reflexivity).
  split; [exact Hs|].
  exact (usage_ratio_zero_iff_empty q wf_example_8 Hs).
Defined.

Lemma usage_ratio_increasing_witness :
  let q1 := mkQueue 4 3 [7; 0; 0; 0] 1 0 in
  let q2 := mkQueue 4 3 [1; 2; 3; 0] 3 0 in
  wf q1 /\ wf q2 /\ capacity q1 = capacity q2 /\
  size q1 < size q2 /\ size q2 < 2 ^ 53 /\
  SFltb (getUsageRatio q1) (getUsageRatio q2) = true.
Proof.
  intros q1 q2. split; [exact wf_example_4|]. split; [exact wf_example_full|].
  split; [reflexivity|].
  assert (size q1 < size q2) as Hlt by (vm_compute; reflexivity).
  assert (size q2 < 2 ^ 53) as Hs by (vm_compute; reflexivity).
  split; [exact Hlt|]. split; [exact Hs|].
  exact (usage_ratio_increasing q1 q2 wf_example_4 wf_example_full eq_refl
           Hlt Hs).
Defined.
